(** * reverse: lib/disassembler.py

    A shallow embedding of the [Disassembler] class: the lazy disassembly
    cache ([lazy_disasm]), the address check ([check_addr]), the symbol and
    jump-table registry ([add_symbol], [read_array], [add_jmptable]) and the
    flow-graph builder ([get_graph]).

    Python integers are [Z]; dictionaries are [gmap]; Python sets are [gset];
    Python lists are [list].  A Python exception is a value of [exc] carried
    by [Raise]; it ends the call, and the half-updated object it leaves
    behind is not kept.  A loop of the source is a function with fuel that
    answers [None] when the fuel runs out; the termination lemmas show when
    it does not.  The capstone decoder, the per-architecture [utils] module
    and the [Binary] object are collaborators of the class: they appear as
    interfaces (type classes) that every definition is parametric in. *)

From Stdlib Require Import ZArith Lia.
From Stdlib Require Import Strings.Ascii Strings.String Strings.HexString Init.Byte.
From Stdlib Require Import Sorting.Sorted.
From stdpp Require Import base option list gmap sets strings pretty.

Local Open Scope Z_scope.

(** ** Exceptions and results *)

Inductive exc : Type :=
  | KeyError
  | ValueError
  | IndexError
  | TypeError
  | AttributeError
  | UnboundLocalError
  | NotImplementedError
  | ExcNotExec (addr : Z)
  | ExcNotAddr (addr : Z).

Inductive res (A : Type) : Type :=
  | Ok (a : A)
  | Raise (e : exc).
Arguments Ok {A} a.
Arguments Raise {A} e.

Definition res_bind {A B} (m : res A) (k : A → res B) : res B :=
  match m with
  | Ok a => k a
  | Raise e => Raise e
  end.

Notation "'try!' x ':=' m 'in' k" := (res_bind m (fun x => k))
  (at level 10, x pattern, m at level 100, k at level 200).

(** ** capstone constants used by the class *)

Definition CS_ARCH_ARM : Z := 0.
Definition CS_ARCH_MIPS : Z := 2.
Definition CS_ARCH_X86 : Z := 3.
Definition CS_OP_REG : Z := 1.
Definition CS_OP_IMM : Z := 2.
Definition CS_MODE_BIG_ENDIAN : Z := Z.shiftl 1 31.

(** ** Decoded instructions *)

(** [op.type] and [op.value.imm] of a capstone operand. *)
Record operand : Type := Operand {
  op_type : Z;
  op_imm : Z
}.

(** A capstone instruction: [i.address], [i.size], [i.id], [i.operands]. *)
Record Inst : Type := MkInst {
  i_address : Z;
  i_size : Z;
  i_id : Z;
  i_operands : list operand
}.

(** [class Jmptable] *)
Record Jmptable : Type := MkJmptable {
  inst_addr : Z;
  table_addr : Z;
  table : list Z;
  name : string
}.

(** ** Collaborator interfaces *)

(** [lib.arch.<arch>.utils], the module returned by [load_arch_module]. *)
Class ArchUtils : Type := {
  is_ret : Inst → bool;
  is_uncond_jump : Inst → bool;
  is_cond_jump : Inst → bool;
  is_call : Inst → bool
}.

(** The read-only part of [self.binary]: [get_section_meta] gives
    [(name, start, end)] or [None], [section_stream_read] the bytes read at an
    address, [binary_check_addr] is [Binary.check_addr], giving
    [(addr_exists, is_exec)]. *)
Class Binary : Type := {
  get_section_meta : Z → option (string * Z * Z);
  section_stream_read : Z → Z → list byte;
  binary_check_addr : Z → bool * bool
}.

(** [self.md.disasm(d, addr)]: the instructions the capstone generator yields,
    in order. *)
Class Decoder : Type := {
  md_disasm : list byte → Z → list Inst
}.

(** ** State of a [Disassembler] object *)

(** What [lazy_disasm] asks of its collaborators, in order: a stream read
    [section_stream_read(addr, n)] and a decoder run [md.disasm(d, addr)]. *)
Inductive event : Type :=
  | EvRead (addr n : Z)
  | EvDisasm (addr : Z).

(** The fields of the object that the methods below read or write.  [trace]
    is not a field of the Python object: it is the history of the calls
    [lazy_disasm] made to the stream and to the decoder, kept to state what a
    call did or did not touch. *)
Record Disassembler : Type := MkDis {
  code : gmap Z Inst;
  symbols : gmap string Z;
  reverse_symbols : gmap Z string;
  jmptables : gmap Z Jmptable;
  inline_comments : gmap Z string;
  previous_comments : gmap Z (list string);
  trace : list event
}.

Definition set_code (c : gmap Z Inst) (d : Disassembler) : Disassembler :=
  MkDis c (symbols d) (reverse_symbols d) (jmptables d)
        (inline_comments d) (previous_comments d) (trace d).

Definition log (evs : list event) (d : Disassembler) : Disassembler :=
  MkDis (code d) (symbols d) (reverse_symbols d) (jmptables d)
        (inline_comments d) (previous_comments d) (trace d ++ evs).

Definition set_symbols (s : gmap string Z) (r : gmap Z string)
    (d : Disassembler) : Disassembler :=
  MkDis (code d) s r (jmptables d)
        (inline_comments d) (previous_comments d) (trace d).

Definition set_jmptables (j : gmap Z Jmptable) (d : Disassembler) : Disassembler :=
  MkDis (code d) (symbols d) (reverse_symbols d) j
        (inline_comments d) (previous_comments d) (trace d).

Definition set_inline_comments (c : gmap Z string) (d : Disassembler) : Disassembler :=
  MkDis (code d) (symbols d) (reverse_symbols d) (jmptables d)
        c (previous_comments d) (trace d).

Definition set_previous_comments (c : gmap Z (list string))
    (d : Disassembler) : Disassembler :=
  MkDis (code d) (symbols d) (reverse_symbols d) (jmptables d)
        (inline_comments d) c (trace d).

Definition empty_dis : Disassembler := MkDis ∅ ∅ ∅ ∅ ∅ ∅ [].

(** ** check_addr *)

Definition check_addr {B : Binary} (print_data : bool) (addr : Z) : res unit :=
  let '(addr_exists, is_exec) := binary_check_addr addr in
  if negb print_data && negb is_exec then Raise (ExcNotExec addr)
  else if negb addr_exists then Raise (ExcNotAddr addr)
  else Ok tt.

(** ** add_symbol *)

Definition add_symbol (addr : Z) (nm : string) (d : Disassembler)
    : res (string * Disassembler) :=
  try! rev1 :=
    match symbols d !! nm with
    | Some last =>
        match reverse_symbols d !! last with
        | Some _ => Ok (delete last (reverse_symbols d))
        | None => Raise KeyError
        end
    | None => Ok (reverse_symbols d)
    end in
  Ok (nm, set_symbols (<[nm := addr]> (symbols d)) (<[addr := nm]> rev1) d).

(** ** lazy_disasm *)

(** The loop [for i in gen: if i.address in self.code: break; ...]. *)
Fixpoint fill_code (gen : list Inst) (c : gmap Z Inst) : gmap Z Inst :=
  match gen with
  | [] => c
  | i :: rest =>
      match c !! i_address i with
      | Some _ => c
      | None => fill_code rest (<[i_address i := i]> c)
      end
  end.

Definition lazy_disasm {B : Binary} {D : Decoder} (addr stay_in_section : Z)
    (d : Disassembler) : option Inst * Disassembler :=
  match get_section_meta addr with
  | None => (None, d)
  | Some (_, start, _) =>
      if bool_decide (stay_in_section ≠ -1) && bool_decide (start ≠ stay_in_section)
      then (None, d)
      else
        match code d !! addr with
        | Some i => (Some i, d)
        | None =>
            let N := 1024 in
            let buf := section_stream_read addr N in
            let gen := md_disasm buf addr in
            let d1 := log [EvRead addr N; EvDisasm addr] d in
            match gen with
            | [] => (None, d1)
            | first :: rest => (Some first, set_code (fill_code rest (code d1)) d1)
            end
        end
  end.

(** [__prefetch_inst] *)
Definition prefetch_inst {B : Binary} {D : Decoder} (inst : Inst) (d : Disassembler)
    : option Inst * Disassembler :=
  lazy_disasm (i_address inst + i_size inst) (-1) d.

(** ** get_unpack_str, struct.unpack and read_array *)

(** The format characters [B], [H], [L], [Q] of [struct]. *)
Inductive fmt_char : Type := FmtB | FmtH | FmtL | FmtQ.

(** An unpack string: the endianness mark ([true] for [">"]) and the format
    character. *)
Definition unpack_str : Type := (bool * fmt_char)%type.

Definition get_unpack_str (mode size_word : Z) : res unpack_str :=
  let endian := negb (Z.land mode CS_MODE_BIG_ENDIAN =? 0) in
  if size_word =? 1 then Ok (endian, FmtB)
  else if size_word =? 2 then Ok (endian, FmtH)
  else if size_word =? 4 then Ok (endian, FmtL)
  else if size_word =? 8 then Ok (endian, FmtQ)
  else Raise UnboundLocalError.

Definition byte_val (b : byte) : Z := Z.of_N (Byte.to_N b).

(** [struct.unpack(unpack_str, b)[0]] on a slice of the right length: the
    unsigned integer the bytes spell in the given byte order. *)
Definition struct_unpack (f : unpack_str) (b : list byte) : Z :=
  if f.1
  then foldl (fun acc x => 256 * acc + byte_val x) 0 b
  else foldr (fun x acc => byte_val x + 256 * acc) 0 b.

(** How the inner [while i < len(buf)] loop of [read_array] ends: by a
    [return array], or by running off the buffer with the updated [ad], [l]
    and [array]. *)
Inductive inner_result : Type :=
  | InnerReturn (array : list Z)
  | InnerDone (ad l : Z) (array : list Z).

Section read_array.
Context {B : Binary}.

(** The inner loop; [buf] is [buf[i:]]. *)
Fixpoint read_array_inner (fuel : nat) (f : unpack_str)
    (size_word s_end array_max_size : Z)
    (buf : list byte) (ad l : Z) (array : list Z) : option inner_result :=
  match buf with
  | [] => Some (InnerDone ad l array)
  | _ :: _ =>
      match fuel with
      | O => None
      | S fuel' =>
          let b := take (Z.to_nat size_word) buf in
          if bool_decide (ad > s_end)
             || bool_decide (Z.of_nat (length b) ≠ size_word)
          then Some (InnerReturn array)
          else
            let w := struct_unpack f b in
            let array := array ++ [w] in
            let ad := ad + size_word in
            let l := l + 1 in
            if bool_decide (l >= array_max_size) then Some (InnerReturn array)
            else read_array_inner fuel' f size_word s_end array_max_size
                   (drop (Z.to_nat size_word) buf) ad l array
      end
  end.

(** The outer [while l < array_max_size] loop. *)
Fixpoint read_array_outer (fuel : nat) (f : unpack_str)
    (size_word s_end array_max_size N : Z)
    (ad l : Z) (array : list Z) : option (list Z) :=
  if bool_decide (l < array_max_size) then
    match fuel with
    | O => None
    | S fuel' =>
        let buf := section_stream_read ad N in
        match buf with
        | [] => Some array
        | _ :: _ =>
            match read_array_inner (length buf) f size_word s_end
                    array_max_size buf ad l array with
            | None => None
            | Some (InnerReturn a) => Some a
            | Some (InnerDone ad' l' a) =>
                read_array_outer fuel' f size_word s_end array_max_size N
                  ad' l' a
            end
        end
    end
  else Some array.

(** [read_array]; [None] only if a loop ran out of fuel (it never does, see
    [read_array_total]). *)
Definition read_array (mode ad array_max_size size_word : Z)
    : option (res (list Z)) :=
  match get_unpack_str mode size_word with
  | Raise e => Some (Raise e)
  | Ok f =>
      let N := size_word * array_max_size in
      match get_section_meta ad with
      | None => Some (Raise TypeError)
      | Some (_, _, s_end) =>
          match read_array_outer (S (Z.to_nat array_max_size)) f size_word
                  s_end array_max_size N ad 0 [] with
          | None => None
          | Some a => Some (Ok a)
          end
      end
  end.
End read_array.

(** ** add_jmptable *)

(** ["%x" % n] *)
Definition py_hex (n : Z) : string :=
  match n with
  | Z0 => "0"
  | Zpos p => HexString.Raw.of_pos p ""
  | Zneg p => "-" +:+ HexString.Raw.of_pos p ""
  end.

(** First loop: [for ad in table: all_cases[ad] = []]. *)
Definition init_cases (tbl : list Z) : gmap Z (list nat) :=
  foldl (fun m ad => <[ad := []]> m) ∅ tbl.

(** Second loop: [for ad in table: all_cases[ad].append(case); case += 1]. *)
Fixpoint number_cases (tbl : list Z) (case : nat) (m : gmap Z (list nat))
    : res (gmap Z (list nat)) :=
  match tbl with
  | [] => Ok m
  | ad :: rest =>
      match m !! ad with
      | None => Raise KeyError
      | Some l => number_cases rest (S case) (<[ad := l ++ [case]]> m)
      end
  end.

Definition all_cases (tbl : list Z) : res (gmap Z (list nat)) :=
  number_cases tbl 0 (init_cases tbl).

(** ["case %s  %s" % (", ".join(map(str, cases)), name)] *)
Definition case_comment (cases : list nat) (nm : string) : string :=
  "case " +:+ String.concat ", " (map pretty cases) +:+ "  " +:+ nm.

(** Third loop: [for ad in all_cases: self.previous_comments[ad] = [...]]. *)
Definition annotate_cases (cases : gmap Z (list nat)) (nm : string)
    (pc : gmap Z (list string)) : gmap Z (list string) :=
  map_fold (fun ad l acc => <[ad := [case_comment l nm]]> acc) pc cases.

Definition add_jmptable {B : Binary} (mode : Z)
    (inst_addr table_addr entry_size nb_entries : Z) (d : Disassembler)
    : option (res Disassembler) :=
  match add_symbol table_addr ("jmptable_0x" +:+ py_hex table_addr) d with
  | Raise e => Some (Raise e)
  | Ok (nm, d1) =>
      match read_array mode table_addr nb_entries entry_size with
      | None => None
      | Some (Raise e) => Some (Raise e)
      | Some (Ok tbl) =>
          let d2 := set_jmptables
            (<[inst_addr := MkJmptable inst_addr table_addr tbl nm]> (jmptables d1)) d1 in
          let d3 := set_inline_comments
            (<[inst_addr := "switch statement " +:+ nm]> (inline_comments d2)) d2 in
          match all_cases tbl with
          | Raise e => Some (Raise e)
          | Ok cases =>
              Some (Ok (set_previous_comments
                          (annotate_cases cases nm (previous_comments d3)) d3))
          end
      end
  end.

(** ** The flow graph *)

(** Modelled from the spec: lib/graph.py (class [Graph]) is not part of the
    sources at hand.  Following the data model, a graph owns the node map
    (address to the instruction of the node, followed by its prefetched
    delay-slot instruction when there is one), the outgoing adjacency
    (address to the ordered sequence of successor addresses), the incoming
    adjacency (address to the set of predecessor addresses) and the two sets
    of jump sources. *)
Record Graph : Type := MkGraph {
  entry_point_addr : Z;
  nodes : gmap Z (list Inst);
  link_out : gmap Z (list Z);
  link_in : gmap Z (gset Z);
  uncond_jumps_set : gset Z;
  cond_jumps_set : gset Z
}.

Definition Graph_init (entry_addr : Z) : Graph :=
  MkGraph entry_addr ∅ ∅ ∅ ∅ ∅.

Definition set_links (lo : gmap Z (list Z)) (li : gmap Z (gset Z)) (g : Graph)
    : Graph :=
  MkGraph (entry_point_addr g) (nodes g) lo li
          (uncond_jumps_set g) (cond_jumps_set g).

(** Modelled from the spec: [Graph.exists], the "already a graph node" test. *)
Definition exists_ (g : Graph) (inst : Inst) : bool :=
  bool_decide (is_Some (nodes g !! i_address inst)).

(** Modelled from the spec: [Graph.add_node], a node with no successor. *)
Definition add_node (g : Graph) (inst : Inst) (prefetch : option Inst) : Graph :=
  MkGraph (entry_point_addr g)
          (<[i_address inst := inst :: option_list prefetch]> (nodes g))
          (link_out g) (link_in g) (uncond_jumps_set g) (cond_jumps_set g).

(** Records [src] among the predecessors of [dst]. *)
Definition add_link_in (src : Z) (li : gmap Z (gset Z)) (dst : Z)
    : gmap Z (gset Z) :=
  <[dst := {[src]} ∪ default ∅ (li !! dst)]> li.

(** The node of [inst] with the successor edges [nxts], in this order, each
    with its matching incoming edge. *)
Definition add_edges (g : Graph) (inst : Inst) (prefetch : option Inst)
    (nxts : list Z) : Graph :=
  let g1 := add_node g inst prefetch in
  set_links (<[i_address inst := nxts]> (link_out g1))
            (foldl (add_link_in (i_address inst)) (link_in g1) nxts) g1.

(** Modelled from the spec: [Graph.set_next], a single successor edge. *)
Definition set_next (g : Graph) (inst : Inst) (nxt : Z)
    (prefetch : option Inst) : Graph :=
  add_edges g inst prefetch [nxt].

(** Modelled from the spec: [Graph.set_cond_next], two successor edges, the
    direct (fallthrough) one first and the taken one second. *)
Definition set_cond_next (g : Graph) (inst : Inst) (nxt_jmp direct_nxt : Z)
    (prefetch : option Inst) : Graph :=
  add_edges g inst prefetch [direct_nxt; nxt_jmp].

(** Modelled from the spec: [Graph.set_jmptable_next], one successor edge per
    table entry. *)
Definition set_jmptable_next (g : Graph) (inst : Inst) (tbl : list Z)
    (prefetch : option Inst) : Graph :=
  add_edges g inst prefetch tbl.

Definition add_uncond_jump (ad : Z) (g : Graph) : Graph :=
  MkGraph (entry_point_addr g) (nodes g) (link_out g) (link_in g)
          ({[ad]} ∪ uncond_jumps_set g) (cond_jumps_set g).

Definition add_cond_jump (ad : Z) (g : Graph) : Graph :=
  MkGraph (entry_point_addr g) (nodes g) (link_out g) (link_in g)
          (uncond_jumps_set g) ({[ad]} ∪ cond_jumps_set g).

(** ** get_graph: retraction of the edges to an undecodable address *)

(** [l.remove(x)] on a Python list: the first occurrence goes, [ValueError]
    if there is none. *)
Fixpoint list_remove (x : Z) (l : list Z) : res (list Z) :=
  match l with
  | [] => Raise ValueError
  | y :: l' =>
      if bool_decide (y = x) then Ok l'
      else try! r := list_remove x l' in Ok (y :: r)
  end.

(** [for i in gph.link_in[ad]: gph.link_out[i].remove(ad)] *)
Fixpoint remove_links (ad : Z) (preds : list Z) (lo : gmap Z (list Z))
    : res (gmap Z (list Z)) :=
  match preds with
  | [] => Ok lo
  | i :: ps =>
      match lo !! i with
      | None => Raise KeyError
      | Some l =>
          try! l' := list_remove ad l in
          remove_links ad ps (<[i := l']> lo)
      end
  end.

(** [for i in gph.link_in[ad]: if not gph.link_out[i]: del gph.link_out[i]] *)
Fixpoint drop_empty (preds : list Z) (lo : gmap Z (list Z))
    : res (gmap Z (list Z)) :=
  match preds with
  | [] => Ok lo
  | i :: ps =>
      match lo !! i with
      | None => Raise KeyError
      | Some [] => drop_empty ps (delete i lo)
      | Some (_ :: _) => drop_empty ps lo
      end
  end.

(** The two loops over the predecessors [preds] of [ad], in iteration order. *)
Definition retract_links (ad : Z) (preds : list Z) (lo : gmap Z (list Z))
    : res (gmap Z (list Z)) :=
  try! lo1 := remove_links ad preds lo in
  drop_empty preds lo1.

(** The branch [if inst is None: ...] of the loop. *)
Definition retract (ad : Z) (g : Graph) : res Graph :=
  match link_in g !! ad with
  | None => Ok g
  | Some preds =>
      try! lo := retract_links ad (elements preds) (link_out g) in
      Ok (set_links lo (delete ad (link_in g)) g)
  end.

(** ** get_graph: the worklist loop *)

(** The local variables of [get_graph] that live across iterations, and the
    object itself.  The head of [stack] is the top of the Python list. *)
Record loop_state : Type := MkLoop {
  gph : Graph;
  stack : list Z;
  prefetch : option Inst;
  dis : Disassembler
}.

Section get_graph.
Context {U : ArchUtils} {B : Binary} {D : Decoder}.
Variable arch : Z.

(** [load_arch_module] *)
Definition load_arch_module : res unit :=
  if (arch =? CS_ARCH_X86) || (arch =? CS_ARCH_ARM) || (arch =? CS_ARCH_MIPS)
  then Ok tt else Raise NotImplementedError.

(** [if self.arch == CS_ARCH_MIPS: prefetch = self.__prefetch_inst(inst)] *)
Definition mips_prefetch (inst : Inst) (pf : option Inst) (d : Disassembler)
    : option Inst * Disassembler :=
  if arch =? CS_ARCH_MIPS then prefetch_inst inst d else (pf, d).

(** [inst.operands[-1]] *)
Definition last_operand (inst : Inst) : res operand :=
  match last (i_operands inst) with
  | Some op => Ok op
  | None => Raise IndexError
  end.

(** One iteration of [while stack:], after [ad = stack.pop()] left [stk]. *)
Definition get_graph_body (s : loop_state) (ad : Z) (stk : list Z)
    : res loop_state :=
  let g := gph s in
  let '(oinst, d1) := lazy_disasm ad (-1) (dis s) in
  match oinst with
  | None =>
      try! g' := retract ad g in
      Ok (MkLoop g' stk (prefetch s) d1)
  | Some inst =>
      if exists_ g inst then Ok (MkLoop g stk (prefetch s) d1)
      else if is_ret inst then
        let '(pf, d2) := mips_prefetch inst (prefetch s) d1 in
        Ok (MkLoop (add_node g inst pf) stk pf d2)
      else if is_uncond_jump inst then
        let '(pf, d2) := mips_prefetch inst (prefetch s) d1 in
        let g1 := add_uncond_jump ad g in
        try! op := last_operand inst in
        if op_type op =? CS_OP_IMM then
          let nxt := op_imm op in
          Ok (MkLoop (set_next g1 inst nxt pf) (nxt :: stk) pf d2)
        else
          match jmptables d2 !! i_address inst with
          | Some jt =>
              let tbl := table jt in
              Ok (MkLoop (set_jmptable_next g1 inst tbl pf)
                         (reverse tbl ++ stk) pf d2)
          | None => Ok (MkLoop (add_node g1 inst pf) stk pf d2)
          end
      else if is_cond_jump inst then
        let '(pf, d2) := mips_prefetch inst (prefetch s) d1 in
        let g1 := add_cond_jump ad g in
        try! op := last_operand inst in
        if op_type op =? CS_OP_IMM then
          try! direct_nxt :=
            (if arch =? CS_ARCH_MIPS then
               match pf with
               | Some p => Ok (i_address p + i_size p)
               | None => Raise AttributeError
               end
             else Ok (i_address inst + i_size inst)) in
          let nxt_jmp := op_imm op in
          Ok (MkLoop (set_cond_next g1 inst nxt_jmp direct_nxt pf)
                     (nxt_jmp :: direct_nxt :: stk) pf d2)
        else Ok (MkLoop (add_node g1 inst pf) stk pf d2)
      else
        let nxt := i_address inst + i_size inst in
        Ok (MkLoop (set_next g inst nxt None) (nxt :: stk) (prefetch s) d1)
  end.

(** [while stack: ...]; [None] when the fuel runs out before the stack. *)
Fixpoint get_graph_loop (fuel : nat) (s : loop_state)
    : option (res loop_state) :=
  match stack s with
  | [] => Some (Ok s)
  | ad :: stk =>
      match fuel with
      | O => None
      | S fuel' =>
          match get_graph_body s ad stk with
          | Raise e => Some (Raise e)
          | Ok s' => get_graph_loop fuel' s'
          end
      end
  end.

Definition get_graph_init (entry_addr : Z) (d : Disassembler) : loop_state :=
  MkLoop (Graph_init entry_addr) [entry_addr] None d.

(** The tail of [get_graph]: [None] for a graph without nodes. *)
Definition get_graph_result (s : loop_state) : option Graph * Disassembler :=
  if bool_decide (size (nodes (gph s)) = 0%nat) then (None, dis s)
  else (Some (gph s), dis s).

(** [get_graph]: the graph or [None], and the object afterwards.  The
    symbol recovery for PE files, a method of the binary that runs after the
    test for an empty graph, and the timing message are left out. *)
Definition get_graph (fuel : nat) (entry_addr : Z) (d : Disassembler)
    : option (res (option Graph * Disassembler)) :=
  match load_arch_module with
  | Raise e => Some (Raise e)
  | Ok _ =>
      match get_graph_loop fuel (get_graph_init entry_addr d) with
      | None => None
      | Some (Raise e) => Some (Raise e)
      | Some (Ok s) => Some (Ok (get_graph_result s))
      end
  end.
End get_graph.

(** ** A small concrete machine

    A byte-coded instruction set in the manner of x86, a one-section binary
    over it and the classifier of its instructions.  The examples below run
    the definitions above on it. *)
Module Toy.
Definition ID_NOP : Z := 1.
Definition ID_RET : Z := 2.
Definition ID_JMP : Z := 3.
Definition ID_JE : Z := 4.

(** [90] nop; [c3] ret; [eb r] jmp to the address r bytes after the
    instruction; [74 r] je likewise; [ff e0] jmp through a register.  Any
    other byte stops the decoder. *)
Fixpoint disasm (buf : list byte) (addr : Z) : list Inst :=
  match buf with
  | [] => []
  | b :: rest =>
      let o := byte_val b in
      if o =? 144 then MkInst addr 1 ID_NOP [] :: disasm rest (addr + 1)
      else if o =? 195 then MkInst addr 1 ID_RET [] :: disasm rest (addr + 1)
      else
        match rest with
        | [] => []
        | r :: rest' =>
            let v := byte_val r in
            if o =? 235 then
              MkInst addr 2 ID_JMP [Operand CS_OP_IMM (addr + 2 + v)]
                :: disasm rest' (addr + 2)
            else if o =? 116 then
              MkInst addr 2 ID_JE [Operand CS_OP_IMM (addr + 2 + v)]
                :: disasm rest' (addr + 2)
            else if (o =? 255) && (v =? 224) then
              MkInst addr 2 ID_JMP [Operand CS_OP_REG 0]
                :: disasm rest' (addr + 2)
            else []
        end
  end.

Definition decoder : Decoder := {| md_disasm := disasm |}.

Definition utils : ArchUtils := {|
  is_ret i := i_id i =? ID_RET;
  is_uncond_jump i := i_id i =? ID_JMP;
  is_cond_jump i := i_id i =? ID_JE;
  is_call i := false
|}.

(** One section [.text] holding [data] from [start] on. *)
Definition covers (start : Z) (data : list byte) (a : Z) : bool :=
  (start <=? a) && (a <? start + Z.of_nat (length data)).

Definition binary (start : Z) (data : list byte) (exec : bool) : Binary := {|
  get_section_meta a :=
    if covers start data a
    then Some (".text", start, start + Z.of_nat (length data) - 1)
    else None;
  section_stream_read a n :=
    if covers start data a
    then take (Z.to_nat n) (drop (Z.to_nat (a - start)) data)
    else [];
  binary_check_addr a :=
    if covers start data a then (true, exec) else (false, false)
|}.

(** [je] to its own fallthrough address, which does not decode. *)
Definition prog_je : list byte := [x74; x00; x06].

(** [nop; nop; ret] *)
Definition prog_nops : list byte := [x90; x90; xc3].

(** [jmp reg; ret; nop; ret] *)
Definition prog_switch : list byte := [xff; xe0; xc3; x90; xc3].

(** Words 1, 2, 1, 3 in two little-endian bytes each, then one stray byte. *)
Definition prog_table : list byte :=
  [x01; x00; x02; x00; x01; x00; x03; x00; xff].
End Toy.

(** ** Stated properties of the state *)

(** [symbols] and [reverse_symbols] are inverses of each other. *)
Definition sym_inverse (d : Disassembler) : Prop :=
  ∀ nm a, symbols d !! nm = Some a ↔ reverse_symbols d !! a = Some nm.

(** Every address with outgoing edges is a node of the graph. *)
Definition out_in_nodes (g : Graph) : Prop :=
  ∀ a, is_Some (link_out g !! a) → is_Some (nodes g !! a).

(** The positions of [ad] in [tbl], in increasing order, counted from
    [case]. *)
Fixpoint case_indices (ad : Z) (tbl : list Z) (case : nat) : list nat :=
  match tbl with
  | [] => []
  | x :: rest =>
      (if bool_decide (x = ad) then [case] else [])
        ++ case_indices ad rest (S case)
  end.

(** The sum, over the destinations, of the number of cases of each. *)
Definition total_cases (cases : gmap Z (list nat)) : nat :=
  map_fold (fun _ l n => (length l + n)%nat) 0%nat cases.

(** ** Measures for the worklist loop *)

(** Every cached instruction has its address in [univ]. *)
Definition cache_ok (univ : gset Z) (d : Disassembler) : Prop :=
  ∀ k i, code d !! k = Some i → i_address i ∈ univ.

(** The addresses the sections of a section table cover; a section is
    [(name, start, end)] with [end] inclusive. *)
Definition section_addrs (sections : list (string * Z * Z)) : list Z :=
  sections ≫= (fun m => seqZ m.1.2 (m.2 - m.1.2 + 1)).

(** The addresses of all the instructions [lazy_disasm] can come across: those
    a decoding pass started inside a section produces, and those of the
    instructions already cached. *)
Definition node_universe {B : Binary} {D : Decoder}
    (sections : list (string * Z * Z)) (d : Disassembler) : gset Z :=
  list_to_set
    ((section_addrs sections ≫=
       (fun a => i_address <$> md_disasm (section_stream_read a 1024) a))
     ++ (i_address <$> (map_to_list (code d)).*2)).

(** The state of the loop between two iterations: the cache lies in [univ]
    and the registry is [jts]. *)
Definition loop_inv (univ : gset Z) (jts : gmap Z Jmptable) (s : loop_state)
    : Prop :=
  cache_ok univ (dis s) ∧ jmptables (dis s) = jts.

(** A bound on the number of addresses one iteration pushes. *)
Definition max_push (j : gmap Z Jmptable) : nat :=
  2 + foldr (fun p n => length (table p.2) + n)%nat 0%nat (map_to_list j).

(** The variant of the loop: the pending addresses, plus [k] for every
    address of [univ] that is not a node yet. *)
Definition get_graph_measure (univ : gset Z) (k : nat) (s : loop_state) : nat :=
  length (stack s) + k * size (univ ∖ dom (nodes (gph s))).

(** Enough fuel for [get_graph] on a binary with the section table
    [sections]. *)
Definition get_graph_fuel {B : Binary} {D : Decoder}
    (sections : list (string * Z * Z)) (d : Disassembler) : nat :=
  1 + max_push (jmptables d) * size (node_universe sections d).

(** ** get_addr_from_string *)

(** How [get_addr_from_string] ends: with an address, with [ExcSymNotFound]
    and the name that was searched for, or with another exception. *)
Inductive addr_result : Type :=
  | AddrOk (a : Z)
  | ExcSymNotFound (s : string)
  | AddrRaise (e : exc).

Section get_addr_from_string.
(** [int(s, base)] of Python, [ValueError] included. *)
Variable py_int : string → Z → res Z.
(** [self.binary.section_names] *)
Variable section_names : gmap string Z.

(** The loop [for s in search: ...]; [None] when it runs off the list. *)
Fixpoint search_addr (opt_addr : option string) (search : list string)
    (d : Disassembler) : option addr_result :=
  match search with
  | [] => None
  | s :: rest =>
      let ra :=
        if String.prefix "0x" s then
          match opt_addr with
          | Some o => py_int o 16
          | None => Raise TypeError
          end
        else
          let a := default (-1) (symbols d !! s) in
          if a =? -1 then Ok (default (-1) (section_names !! s)) else Ok a in
      match ra with
      | Raise e => Some (AddrRaise e)
      | Ok a =>
          if negb (a =? -1) then Some (AddrOk a)
          else search_addr opt_addr rest d
      end
  end.

Definition get_addr_from_string (opt_addr : option string) (raw : bool)
    (d : Disassembler) : addr_result :=
  match opt_addr with
  | None =>
      if raw then AddrOk 0
      else
        let search := ["main"; "_main"]%string in
        match search_addr opt_addr search d with
        | Some r => r
        | None => ExcSymNotFound "main"
        end
  | Some o =>
      match search_addr opt_addr [o] d with
      | Some r => r
      | None => ExcSymNotFound o
      end
  end.
End get_addr_from_string.

(** ** print_calls *)

(** What the printing methods write, in order: the section header of
    [print_section_meta], an instruction given to [o.print_inst]. *)
Inductive out_event : Type :=
  | OutSection (name : string) (s_start s_end : Z)
  | OutInst (i : Inst).

Section print_calls.
Context {U : ArchUtils} {B : Binary} {D : Decoder}.
Variable arch : Z.

(** The loop [while ad < s_end: ...] of [print_calls]. *)
Fixpoint print_calls_loop (fuel : nat) (s_start s_end ad : Z)
    (d : Disassembler) (out : list out_event)
    : option (list out_event * Disassembler) :=
  if bool_decide (ad < s_end) then
    match fuel with
    | O => None
    | S fuel' =>
        let '(oi, d1) := lazy_disasm ad s_start d in
        match oi with
        | None => print_calls_loop fuel' s_start s_end (ad + 1) d1 out
        | Some i =>
            print_calls_loop fuel' s_start s_end (ad + i_size i) d1
              (if is_call i then out ++ [OutInst i] else out)
        end
    end
  else Some (out, d).

(** [print_calls], with [ctx.entry_addr] for argument: what is printed and
    the object afterwards; [None] when the fuel runs out. *)
Definition print_calls (fuel : nat) (entry_addr : Z) (d : Disassembler)
    : option (res (list out_event * Disassembler)) :=
  match load_arch_module arch with
  | Raise e => Some (Raise e)
  | Ok _ =>
      match get_section_meta entry_addr with
      | None => Some (Raise TypeError)
      | Some (s_name, s_start, s_end) =>
          match print_calls_loop fuel s_start s_end s_start d
                  [OutSection s_name s_start s_end] with
          | None => None
          | Some r => Some (Ok r)
          end
      end
  end.
End print_calls.

(** ** More stated properties *)

(** Every cached instruction sits under its own address. *)
Definition cache_keyed (d : Disassembler) : Prop :=
  ∀ k i, code d !! k = Some i → i_address i = k.

(** Every cached instruction satisfies [P]. *)
Definition cache_all (P : Inst → Prop) (d : Disassembler) : Prop :=
  ∀ k i, code d !! k = Some i → P i.

(** Every recorded predecessor has the matching outgoing edge. *)
Definition in_has_out (g : Graph) : Prop :=
  ∀ b preds a, link_in g !! b = Some preds → a ∈ preds →
    ∃ l, link_out g !! a = Some l ∧ b ∈ l.

(** The words of [buf], [sw] bytes each, the first [n] of them. *)
Definition words_of (f : unpack_str) (sw : nat) (buf : list byte) (n : nat)
    : list Z :=
  (fun i => struct_unpack f (take sw (drop (i * sw) buf))) <$> seq 0 n.

(** ** Reading a case comment back *)

(** A decimal digit. *)
Definition is_digit (c : ascii) : bool :=
  (48 <=? nat_of_ascii c)%nat && (nat_of_ascii c <=? 57)%nat.

(** A string of decimal digits. *)
Fixpoint digits (s : string) : bool :=
  match s with
  | EmptyString => true
  | String c s' => is_digit c && digits s'
  end.

(** A string that cannot continue a numeral: empty, or starting with a
    character that is not a digit. *)
Definition stops (s : string) : Prop :=
  match s with
  | EmptyString => True
  | String c _ => is_digit c = false
  end.

(** The value the bytes [b] spell, least significant byte first. *)
Definition le_value (b : list byte) : Z :=
  foldr (fun x acc => byte_val x + 256 * acc) 0 b.

(** * Properties *)

(** ** lazy_disasm *)

Section lazy_disasm_facts.
Context {B : Binary} {D : Decoder}.

(** A cached address is answered from the cache: no stream read, no decoder
    run, the object is left as it was. *)
Lemma lazy_disasm_cached addr d i nm start e :
  get_section_meta addr = Some (nm, start, e) →
  code d !! addr = Some i →
  lazy_disasm addr (-1) d = (Some i, d).
Proof.
  intros Hm Hc. unfold lazy_disasm. rewrite Hm.
  rewrite bool_decide_eq_false_2 by (intros Hne; by apply Hne).
  simpl. by rewrite Hc.
Qed.

(** No address is answered without a covering section. *)
Lemma lazy_disasm_Some_meta addr stay d i d' :
  lazy_disasm addr stay d = (Some i, d') →
  ∃ nm start e, get_section_meta addr = Some (nm, start, e)
                ∧ (stay = -1 ∨ start = stay).
Proof.
  unfold lazy_disasm. destruct (get_section_meta addr) as [[[nm start] e]|];
    [|discriminate].
  intros Hl. exists nm, start, e. split; [done|].
  destruct (decide (stay = -1)) as [|Hs]; [by left|right].
  destruct (decide (start = stay)) as [|Hne]; [done|].
  rewrite !bool_decide_eq_true_2 in Hl by done. discriminate.
Qed.

(** [fill_code] never overwrites an entry of the cache. *)
Lemma fill_code_keeps gen c k i :
  c !! k = Some i → fill_code gen c !! k = Some i.
Proof.
  revert c. induction gen as [|j gen IH]; intros c Hk; simpl; [done|].
  destruct (c !! i_address j) eqn:Hj; [done|].
  apply IH. rewrite lookup_insert_ne; [done|].
  intros Heq. rewrite Heq in Hj. congruence.
Qed.

(** Whatever [fill_code] adds comes from the generator, under its own
    address. *)
Lemma fill_code_new gen c k i :
  fill_code gen c !! k = Some i →
  c !! k = Some i ∨ (i ∈ gen ∧ i_address i = k).
Proof.
  revert c. induction gen as [|j gen IH]; intros c; simpl; [by left|].
  destruct (c !! i_address j) eqn:Hj; [by left|].
  intros Hf. apply IH in Hf as [Hf|[Hin Ha]].
  - destruct (decide (i_address j = k)) as [<-|Hne].
    + rewrite lookup_insert_eq in Hf. inversion Hf; subst.
      right. split; [apply list_elem_of_here|done].
    + rewrite lookup_insert_ne in Hf by done. by left.
  - right. split; [by apply list_elem_of_further|done].
Qed.

(** An address no produced instruction carries stays out of the cache. *)
Lemma fill_code_absent gen c k :
  c !! k = None → (∀ i, i ∈ gen → i_address i ≠ k) →
  fill_code gen c !! k = None.
Proof.
  intros Hc Hgen. destruct (fill_code gen c !! k) as [i|] eqn:Hf; [|done].
  apply fill_code_new in Hf as [Hf|[Hin Ha]]; [congruence|].
  by apply Hgen in Hin.
Qed.

(** A cache miss caches the instructions after the first one only: the
    instruction it returns is left out, so the next call at the same address
    misses again, and reads and decodes again. *)
Lemma lazy_disasm_miss_not_cached addr d nm start e first rest :
  get_section_meta addr = Some (nm, start, e) →
  code d !! addr = None →
  md_disasm (section_stream_read addr 1024) addr = first :: rest →
  (∀ i, i ∈ rest → i_address i ≠ addr) →
  ∃ d1, lazy_disasm addr (-1) d = (Some first, d1)
        ∧ code d1 !! addr = None
        ∧ trace d1 = trace d ++ [EvRead addr 1024; EvDisasm addr]
        ∧ ∃ d2, lazy_disasm addr (-1) d1 = (Some first, d2)
                ∧ trace d2 = trace d1 ++ [EvRead addr 1024; EvDisasm addr].
Proof.
  intros Hm Hc Hgen Hrest.
  assert (Hstep : ∀ d0, code d0 !! addr = None →
    lazy_disasm addr (-1) d0 =
      (Some first,
       set_code (fill_code rest (code d0))
                (log [EvRead addr 1024; EvDisasm addr] d0))).
  { intros d0 Hd0. unfold lazy_disasm. rewrite Hm.
    rewrite bool_decide_eq_false_2 by (intros Hne; by apply Hne).
    simpl. rewrite Hd0, Hgen. done. }
  eexists. split; [by apply Hstep|].
  assert (Hnone : fill_code rest (code d) !! addr = None)
    by (by apply fill_code_absent).
  split; [exact Hnone|]. split; [done|].
  eexists. split; [apply Hstep; exact Hnone|done].
Qed.
End lazy_disasm_facts.

(** C8: with a [stay_in_section] bound other than -1 that differs from the
    start of the section covering [addr], [lazy_disasm] answers [None] and
    leaves the object as it was: no stream read and no decoder run are made
    (the trace is unchanged).  Hence an instruction it does answer under a
    bound lies in the section that starts at the bound. *)
Theorem lazy_disasm_section_refusal {B : Binary} {D : Decoder}
    (addr stay : Z) (d : Disassembler) :
  stay ≠ -1 →
  (∀ nm start e, get_section_meta addr = Some (nm, start, e) →
     start ≠ stay → lazy_disasm addr stay d = (None, d))
  ∧ (∀ i d', lazy_disasm addr stay d = (Some i, d') →
       ∃ nm e, get_section_meta addr = Some (nm, stay, e)).
Proof.
  intros Hs. split.
  - intros nm start e Hm Hne. unfold lazy_disasm. rewrite Hm.
    by rewrite !bool_decide_eq_true_2.
  - intros i d' Hl. apply lazy_disasm_Some_meta in Hl as (nm & start & e & Hm & Hb).
    destruct Hb as [Hb|Hb]; [done|]. subst start. by exists nm, e.
Qed.

Lemma lazy_disasm_section_refusal_witness :
  lazy_disasm (B := Toy.binary 4096 Toy.prog_nops true) (D := Toy.decoder)
    4097 8192 empty_dis = (None, empty_dis).
Proof.
  refine (proj1 (lazy_disasm_section_refusal
            (B := Toy.binary 4096 Toy.prog_nops true) (D := Toy.decoder)
            4097 8192 empty_dis _) ".text"%string 4096 4098 _ _).
  - lia.
  - reflexivity.
  - lia.
Defined.

(** C2: on the program [nop; nop; ret] at 4096 with an empty cache,
    [lazy_disasm 4096] returns the first [nop] and caches the instructions at
    4097 and 4098 but not the one at 4096 it returns; a second call at 4096
    therefore reads the stream and runs the decoder once more. *)
Theorem lazy_disasm_first_not_cached :
  let B0 := Toy.binary 4096 Toy.prog_nops true in
  let nop := MkInst 4096 1 Toy.ID_NOP [] in
  md_disasm (Decoder := Toy.decoder) (section_stream_read (Binary := B0) 4096 1024) 4096
    = [nop; MkInst 4097 1 Toy.ID_NOP []; MkInst 4098 1 Toy.ID_RET []]
  ∧ ∃ d1 d2,
      lazy_disasm (B := B0) (D := Toy.decoder) 4096 (-1) empty_dis = (Some nop, d1)
      ∧ code d1 !! 4096 = None
      ∧ is_Some (code d1 !! 4097) ∧ is_Some (code d1 !! 4098)
      ∧ lazy_disasm (B := B0) (D := Toy.decoder) 4096 (-1) d1 = (Some nop, d2)
      ∧ trace d2 = [EvRead 4096 1024; EvDisasm 4096; EvRead 4096 1024; EvDisasm 4096].
Proof.
  intros B0 nop. split; [reflexivity|].
  eexists _, _. split; [reflexivity|].
  split; [reflexivity|]. split; [by eexists|]. split; [by eexists|].
  split; reflexivity.
Qed.

(** ** check_addr *)

Section check_addr_facts.
Context {B : Binary}.

(** [ExcNotExec] is raised exactly when code is asked for and the binary
    reports the address as not executable, whether it exists or not. *)
Lemma check_addr_NotExec_iff print_data addr :
  check_addr print_data addr = Raise (ExcNotExec addr)
  ↔ print_data = false ∧ (binary_check_addr addr).2 = false.
Proof.
  unfold check_addr. destruct (binary_check_addr addr) as [ex isx].
  destruct print_data, isx, ex; simpl; split;
    (intros [? ?] || intros ?); try done; try discriminate.
Qed.

(** [ExcNotAddr] is raised exactly when the address does not exist and the
    first test let it through. *)
Lemma check_addr_NotAddr_iff print_data addr :
  check_addr print_data addr = Raise (ExcNotAddr addr)
  ↔ (binary_check_addr addr).1 = false
    ∧ (print_data = true ∨ (binary_check_addr addr).2 = true).
Proof.
  unfold check_addr. destruct (binary_check_addr addr) as [ex isx].
  destruct print_data, isx, ex; simpl; split;
    (intros [? [?|?]] || intros ?); try done; try discriminate;
    split; auto.
Qed.
End check_addr_facts.

(** C9: for an address outside every section, which the binary reports as
    neither existing nor executable, [check_addr] with [print_data] false
    raises [ExcNotExec], not [ExcNotAddr]: the executable test comes first. *)
Theorem check_addr_nonexistent_not_exec :
  let B0 := Toy.binary 4096 Toy.prog_nops true in
  get_section_meta (Binary := B0) 0 = None
  ∧ binary_check_addr (Binary := B0) 0 = (false, false)
  ∧ check_addr (B := B0) false 0 = Raise (ExcNotExec 0)
  ∧ check_addr (B := B0) true 0 = Raise (ExcNotAddr 0).
Proof. repeat split. Qed.

(** ** add_symbol *)

(** X10: the name collision is handled: binding [nm] anew drops the reverse
    entry of its old address first, and when [addr] carries no name yet the
    two maps stay inverses of each other. *)
Lemma add_symbol_fresh_addr addr nm d :
  sym_inverse d →
  reverse_symbols d !! addr = None →
  ∃ d', add_symbol addr nm d = Ok (nm, d')
        ∧ sym_inverse d'
        ∧ symbols d' !! nm = Some addr
        ∧ reverse_symbols d' !! addr = Some nm
        ∧ ∀ last, symbols d !! nm = Some last → reverse_symbols d' !! last = None.
Proof.
  intros Hinv Hfresh. unfold add_symbol.
  destruct (symbols d !! nm) as [last|] eqn:Hnm.
  - assert (Hlast : reverse_symbols d !! last = Some nm) by (by apply Hinv).
    assert (Hne : last ≠ addr) by congruence.
    rewrite Hlast. simpl. eexists. split; [done|].
    unfold sym_inverse, set_symbols. simpl.
    split; [|split; [by rewrite lookup_insert_eq|split;
      [by rewrite lookup_insert_eq|]]].
    + intros n a. simpl. destruct (decide (n = nm)) as [->|Hn].
      * rewrite lookup_insert_eq. split.
        -- intros [= <-]. by rewrite lookup_insert_eq.
        -- intros Hr. destruct (decide (a = addr)) as [->|Ha]; [done|].
           rewrite lookup_insert_ne in Hr by done.
           apply lookup_delete_Some in Hr as [Hl Hr].
           apply Hinv in Hr. congruence.
      * rewrite lookup_insert_ne by done.
        destruct (decide (a = addr)) as [->|Ha].
        -- rewrite lookup_insert_eq. split.
           ++ intros Hs. apply Hinv in Hs. congruence.
           ++ congruence.
        -- rewrite lookup_insert_ne by done.
           destruct (decide (a = last)) as [->|Hal].
           ++ rewrite lookup_delete_eq. split; [|done].
              intros Hs. apply Hinv in Hs. congruence.
           ++ rewrite lookup_delete_ne by done. apply Hinv.
    + intros l [= <-]. rewrite lookup_insert_ne by done.
      apply lookup_delete_eq.
  - simpl. eexists. split; [done|].
    unfold sym_inverse, set_symbols. simpl.
    split; [|split; [by rewrite lookup_insert_eq|split;
      [by rewrite lookup_insert_eq|done]]].
    intros n a. destruct (decide (n = nm)) as [->|Hn].
    + rewrite lookup_insert_eq. split.
      * intros [= <-]. by rewrite lookup_insert_eq.
      * intros Hr. destruct (decide (a = addr)) as [->|Ha]; [done|].
        rewrite lookup_insert_ne in Hr by done.
        apply Hinv in Hr. congruence.
    + rewrite lookup_insert_ne by done.
      destruct (decide (a = addr)) as [->|Ha].
      * rewrite lookup_insert_eq. split.
        -- intros Hs. apply Hinv in Hs. congruence.
        -- congruence.
      * rewrite lookup_insert_ne by done. apply Hinv.
Qed.

(** C5: from empty symbol tables, [add_symbol 4096 "main"] leaves the two
    maps inverses of each other; [add_symbol 4096 "start"] after it leaves
    [main] bound to 4096 in [symbols] while [reverse_symbols] now names 4096
    [start]: the maps are no longer inverses.  The old name of an address is
    not unbound, only the old address of a name. *)
Theorem add_symbol_breaks_inverse :
  ∃ d0 d1,
    add_symbol 4096 "main" empty_dis = Ok ("main"%string, d0)
    ∧ sym_inverse d0
    ∧ add_symbol 4096 "start" d0 = Ok ("start"%string, d1)
    ∧ symbols d1 !! "main"%string = Some 4096
    ∧ symbols d1 !! "start"%string = Some 4096
    ∧ reverse_symbols d1 !! 4096 = Some "start"%string
    ∧ ¬ sym_inverse d1.
Proof.
  eexists _, _. split; [reflexivity|]. split.
  - intros nm a. unfold set_symbols, empty_dis. simpl.
    rewrite !insert_empty, !lookup_singleton_Some. tauto.
  - split; [reflexivity|]. split; [reflexivity|].
    split; [reflexivity|]. split; [reflexivity|].
    intros Hinv. specialize (Hinv "main"%string 4096).
    destruct Hinv as [Hinv _].
    specialize (Hinv eq_refl). vm_compute in Hinv. discriminate.
Qed.

(** The same through [add_jmptable]: a table at an address that already has a
    name. *)
Example add_jmptable_breaks_inverse :
  let B0 := Toy.binary 8192 Toy.prog_table false in
  let d0 := set_symbols {["cases"%string := 8192]} {[8192 := "cases"%string]}
              empty_dis in
  ∃ d1, add_jmptable (B := B0) 0 4096 8192 2 4 d0 = Some (Ok d1)
        ∧ symbols d1 !! "cases"%string = Some 8192
        ∧ reverse_symbols d1 !! 8192 = Some "jmptable_0x2000"%string.
Proof.
  intros B0 d0. eexists. split; [vm_compute; reflexivity|].
  split; reflexivity.
Qed.

(** ** The graph operations *)

Lemma add_link_in_lookup src li dst t :
  add_link_in src li dst !! t =
    if decide (t = dst) then Some ({[src]} ∪ default ∅ (li !! dst)) else li !! t.
Proof.
  unfold add_link_in. destruct (decide (t = dst)) as [->|Hne].
  - by rewrite lookup_insert_eq.
  - by rewrite lookup_insert_ne.
Qed.

(** After the incoming edges of a node are recorded, exactly its successors
    have gained the node as a predecessor. *)
Lemma foldl_add_link_in_lookup src nxts li t :
  foldl (add_link_in src) li nxts !! t =
    if decide (t ∈ nxts) then Some ({[src]} ∪ default ∅ (li !! t)) else li !! t.
Proof.
  revert li. induction nxts as [|x nxts IH]; intros li.
  - done.
  - cbn [foldl]. rewrite IH, add_link_in_lookup.
    destruct (decide (t = x)) as [->|Hne].
    + rewrite (decide_True (P := x ∈ x :: nxts)) by apply list_elem_of_here.
      destruct (decide (x ∈ nxts)); [|done].
      simpl. f_equal. by rewrite (assoc_L (∪)), union_idemp_L.
    + destruct (decide (t ∈ nxts)) as [Hin|Hnin].
      * by rewrite decide_True by (by apply list_elem_of_further).
      * rewrite decide_False; [done|].
        intros [?|?]%elem_of_cons; done.
Qed.

Lemma add_edges_nodes g inst pf nxts :
  nodes (add_edges g inst pf nxts)
  = <[i_address inst := inst :: option_list pf]> (nodes g).
Proof. done. Qed.

Lemma add_edges_link_out g inst pf nxts :
  link_out (add_edges g inst pf nxts) = <[i_address inst := nxts]> (link_out g).
Proof. done. Qed.

Lemma add_edges_link_in g inst pf nxts t :
  link_in (add_edges g inst pf nxts) !! t =
    if decide (t ∈ nxts)
    then Some ({[i_address inst]} ∪ default ∅ (link_in g !! t))
    else link_in g !! t.
Proof. apply foldl_add_link_in_lookup. Qed.

(** Retraction leaves the nodes alone. *)
Lemma retract_nodes ad g g' : retract ad g = Ok g' → nodes g' = nodes g.
Proof.
  unfold retract. destruct (link_in g !! ad); [|by intros [= <-]].
  destruct (retract_links _ _ _); simpl; [by intros [= <-]|discriminate].
Qed.

(** ** get_graph *)

Section get_graph_facts.
Context {U : ArchUtils} {B : Binary} {D : Decoder}.
Variable arch : Z.

Lemma lazy_disasm_jmptables addr stay d r d' :
  lazy_disasm addr stay d = (r, d') → jmptables d' = jmptables d.
Proof.
  unfold lazy_disasm.
  destruct (get_section_meta addr) as [[[nm start] e]|]; [|by intros [= <- <-]].
  destruct (_ && _); [by intros [= <- <-]|].
  destruct (code d !! addr); [by intros [= <- <-]|].
  simpl. destruct (md_disasm _ _); by intros [= <- <-].
Qed.

Lemma mips_prefetch_jmptables inst pf0 d pf d' :
  mips_prefetch arch inst pf0 d = (pf, d') → jmptables d' = jmptables d.
Proof.
  unfold mips_prefetch, prefetch_inst. destruct (arch =? CS_ARCH_MIPS).
  - apply lazy_disasm_jmptables.
  - by intros [= <- <-].
Qed.

Lemma get_graph_loop_nil fuel s :
  stack s = [] → get_graph_loop arch fuel s = Some (Ok s).
Proof. intros Hs. destruct fuel; simpl; by rewrite Hs. Qed.

Lemma get_graph_loop_cons fuel s ad stk :
  stack s = ad :: stk →
  get_graph_loop arch (S fuel) s =
    match get_graph_body arch s ad stk with
    | Raise e => Some (Raise e)
    | Ok s' => get_graph_loop arch fuel s'
    end.
Proof. intros Hs. simpl. by rewrite Hs. Qed.

(** The graph operations of an iteration only add to the node map. *)
Lemma get_graph_body_nodes_mono s ad stk s' :
  get_graph_body arch s ad stk = Ok s' →
  dom (nodes (gph s)) ⊆ dom (nodes (gph s')).
Proof.
  unfold get_graph_body.
  destruct (lazy_disasm ad (-1) (dis s)) as [[inst|] d1].
  2:{ destruct (retract ad (gph s)) as [g'|] eqn:Hret; [|discriminate].
      simpl. intros [= <-]. simpl. by rewrite (retract_nodes _ _ _ Hret). }
  destruct (exists_ (gph s) inst); [by intros [= <-]|].
  destruct (mips_prefetch arch inst (prefetch s) d1) as [pf d2].
  assert (Hins : ∀ x, dom (nodes (gph s))
                      ⊆ dom (<[i_address inst := x]> (nodes (gph s)))).
  { intros x. rewrite dom_insert_L. apply union_subseteq_r. }
  destruct (is_ret inst); [intros [= <-]; apply Hins|].
  destruct (is_uncond_jump inst).
  { destruct (last_operand inst) as [op|]; [|discriminate]. simpl.
    destruct (op_type op =? CS_OP_IMM); [intros [= <-]; apply Hins|].
    destruct (jmptables d2 !! i_address inst); intros [= <-]; apply Hins. }
  destruct (is_cond_jump inst); [|intros [= <-]; apply Hins].
  destruct (last_operand inst) as [op|]; [|discriminate]. simpl.
  destruct (op_type op =? CS_OP_IMM); [|intros [= <-]; apply Hins].
  destruct (if arch =? CS_ARCH_MIPS then _ else _); [|discriminate].
  simpl. intros [= <-]. apply Hins.
Qed.

(** Hence a loop that ends with no node in the graph never added one. *)
Lemma get_graph_loop_nodes_mono fuel s s' :
  get_graph_loop arch fuel s = Some (Ok s') →
  dom (nodes (gph s)) ⊆ dom (nodes (gph s')).
Proof.
  revert s. induction fuel as [|fuel IH]; intros s.
  - simpl. destruct (stack s); [by intros [= <-]|discriminate].
  - simpl. destruct (stack s) as [|ad stk]; [by intros [= <-]|].
    destruct (get_graph_body arch s ad stk) as [s1|] eqn:Hbody; [|discriminate].
    intros Hloop. etrans; [by eapply get_graph_body_nodes_mono|by apply IH].
Qed.

(** C7: [get_graph] never returns a graph without nodes: when the loop ends
    with no node in the graph the result is [None], and this is what happens
    when the entry address does not decode. *)
Theorem get_graph_no_graph (fuel : nat) (entry : Z) (d : Disassembler) :
  (∀ g d', get_graph arch fuel entry d = Some (Ok (Some g, d')) →
     nodes g ≠ ∅)
  ∧ (∀ s, load_arch_module arch = Ok tt →
       get_graph_loop arch fuel (get_graph_init entry d) = Some (Ok s) →
       nodes (gph s) = ∅ →
       get_graph arch fuel entry d = Some (Ok (None, dis s)))
  ∧ (∀ d1, load_arch_module arch = Ok tt →
       lazy_disasm entry (-1) d = (None, d1) →
       get_graph arch (S fuel) entry d = Some (Ok (None, d1))).
Proof.
  split; [|split].
  - intros g d'. unfold get_graph.
    destruct (load_arch_module arch); [|discriminate].
    destruct (get_graph_loop arch fuel _) as [[s|e]|]; try discriminate.
    unfold get_graph_result. case_bool_decide as Hsz; [discriminate|].
    intros [= <- <-] Hempty. apply Hsz. rewrite Hempty. apply map_size_empty.
  - intros s Harch Hloop Hempty. unfold get_graph. rewrite Harch, Hloop.
    unfold get_graph_result. rewrite bool_decide_eq_true_2; [done|].
    rewrite Hempty. apply map_size_empty.
  - intros d1 Harch Hdec. unfold get_graph. rewrite Harch.
    rewrite (get_graph_loop_cons fuel _ entry []) by done.
    unfold get_graph_body. simpl. rewrite Hdec.
    unfold retract. simpl. rewrite lookup_empty. simpl.
    rewrite get_graph_loop_nil by done.
    unfold get_graph_result. simpl.
    rewrite bool_decide_eq_true_2; [done|]. apply map_size_empty.
Qed.

(** C3: an unconditional jump, not yet a node, whose last operand is not an
    immediate.  With a table registered at its address the node gets the
    table as its successor sequence (one edge per entry), every entry gets
    the jump as a predecessor and is pushed; with none the node is added and
    both adjacency maps are left as they were, so the node has no successor,
    and nothing is pushed. *)
Theorem get_graph_indirect_jump (s : loop_state) (ad : Z) (stk : list Z)
    (inst : Inst) (d1 : Disassembler) (op : operand) :
  lazy_disasm ad (-1) (dis s) = (Some inst, d1) →
  exists_ (gph s) inst = false →
  is_ret inst = false →
  is_uncond_jump inst = true →
  last (i_operands inst) = Some op →
  op_type op ≠ CS_OP_IMM →
  out_in_nodes (gph s) →
  ∃ s', get_graph_body arch s ad stk = Ok s'
    ∧ is_Some (nodes (gph s') !! i_address inst)
    ∧ ad ∈ uncond_jumps_set (gph s')
    ∧ match jmptables (dis s) !! i_address inst with
      | Some jt =>
          link_out (gph s') !! i_address inst = Some (table jt)
          ∧ stack s' = reverse (table jt) ++ stk
          ∧ ∀ t, t ∈ table jt →
              t ∈ stack s'
              ∧ ∃ preds, link_in (gph s') !! t = Some preds
                         ∧ i_address inst ∈ preds
      | None =>
          link_out (gph s') !! i_address inst = None
          ∧ link_out (gph s') = link_out (gph s)
          ∧ link_in (gph s') = link_in (gph s)
          ∧ stack s' = stk
      end.
Proof.
  intros Hdec Hex Hret Hunc Hop Himm Hwf.
  unfold get_graph_body. rewrite Hdec, Hex, Hret, Hunc.
  destruct (mips_prefetch arch inst (prefetch s) d1) as [pf d2] eqn:Hpf.
  unfold last_operand. rewrite Hop. simpl.
  rewrite (proj2 (Z.eqb_neq _ _) Himm).
  rewrite (mips_prefetch_jmptables _ _ _ _ _ Hpf).
  rewrite (lazy_disasm_jmptables _ _ _ _ _ Hdec).
  destruct (jmptables (dis s) !! i_address inst) as [jt|] eqn:Hjt.
  - eexists. split; [done|]. cbn [gph stack]. unfold set_jmptable_next.
    split; [rewrite add_edges_nodes, lookup_insert_eq; by eexists|].
    split; [simpl; apply elem_of_union_l; by apply elem_of_singleton|].
    split; [by rewrite add_edges_link_out, lookup_insert_eq|]. split; [done|].
    intros t Ht. split.
    + apply elem_of_app. left. by apply elem_of_reverse.
    + rewrite add_edges_link_in, decide_True by done.
      eexists. split; [done|].
      apply elem_of_union_l. by apply elem_of_singleton.
  - eexists. split; [done|]. cbn [gph stack].
    split; [simpl; rewrite lookup_insert_eq; by eexists|].
    split; [simpl; apply elem_of_union_l; by apply elem_of_singleton|].
    split; [|done]. simpl.
    destruct (link_out (gph s) !! i_address inst) eqn:Hlo; [|done].
    assert (Hn : is_Some (nodes (gph s) !! i_address inst))
      by (apply Hwf; by eexists).
    unfold exists_ in Hex. by rewrite bool_decide_eq_true_2 in Hex.
Qed.

(** C10: on MIPS, a conditional jump with an immediate operand, not yet a
    node.  When the instruction after it does not decode, the iteration
    raises [AttributeError] (the fallthrough address is read off [None]) and
    so does the loop; when it decodes, the fallthrough address is the one
    after the delay slot and the iteration goes through. *)
Theorem get_graph_mips_delay_slot (s : loop_state) (ad : Z) (stk : list Z)
    (inst : Inst) (d1 : Disassembler) (op : operand) :
  arch = CS_ARCH_MIPS →
  stack s = ad :: stk →
  lazy_disasm ad (-1) (dis s) = (Some inst, d1) →
  exists_ (gph s) inst = false →
  is_ret inst = false →
  is_uncond_jump inst = false →
  is_cond_jump inst = true →
  last (i_operands inst) = Some op →
  op_type op = CS_OP_IMM →
  (∀ d2, lazy_disasm (i_address inst + i_size inst) (-1) d1 = (None, d2) →
     get_graph_body arch s ad stk = Raise AttributeError
     ∧ ∀ fuel, get_graph_loop arch (S fuel) s = Some (Raise AttributeError))
  ∧ (∀ p d2, lazy_disasm (i_address inst + i_size inst) (-1) d1 = (Some p, d2) →
       get_graph_body arch s ad stk =
         Ok (MkLoop (set_cond_next (add_cond_jump ad (gph s)) inst (op_imm op)
                       (i_address p + i_size p) (Some p))
                    (op_imm op :: (i_address p + i_size p) :: stk)
                    (Some p) d2)).
Proof.
  intros Harch Hstk Hdec Hex Hret Hunc Hcond Hop Himm.
  assert (Hbody : ∀ r d2,
    lazy_disasm (i_address inst + i_size inst) (-1) d1 = (r, d2) →
    get_graph_body arch s ad stk =
      match r with
      | None => Raise AttributeError
      | Some p =>
          Ok (MkLoop (set_cond_next (add_cond_jump ad (gph s)) inst (op_imm op)
                        (i_address p + i_size p) (Some p))
                     (op_imm op :: (i_address p + i_size p) :: stk)
                     (Some p) d2)
      end).
  { intros r d2 Hpf. unfold get_graph_body.
    rewrite Hdec, Hex, Hret, Hunc, Hcond.
    unfold mips_prefetch, prefetch_inst. rewrite Harch, Z.eqb_refl, Hpf.
    unfold last_operand. rewrite Hop. simpl. rewrite Himm, Z.eqb_refl.
    by destruct r. }
  split.
  - intros d2 Hpf. pose proof (Hbody _ _ Hpf) as Hb. split; [done|].
    intros fuel. by rewrite (get_graph_loop_cons fuel s ad stk Hstk), Hb.
  - intros p d2 Hpf. apply (Hbody _ _ Hpf).
Qed.
End get_graph_facts.

Lemma out_in_nodes_init entry : out_in_nodes (Graph_init entry).
Proof. intros a [l Hl]. simpl in Hl. by rewrite lookup_empty in Hl. Qed.

Lemma get_graph_no_graph_witness :
  get_graph (U := Toy.utils) (B := Toy.binary 4096 Toy.prog_je true)
    (D := Toy.decoder) CS_ARCH_X86 1 4098 empty_dis
  = Some (Ok (None, log [EvRead 4098 1024; EvDisasm 4098] empty_dis)).
Proof.
  apply (proj2 (proj2 (get_graph_no_graph
           (U := Toy.utils) (B := Toy.binary 4096 Toy.prog_je true)
           (D := Toy.decoder) CS_ARCH_X86 0%nat 4098 empty_dis)));
    reflexivity.
Defined.

Lemma get_graph_indirect_jump_witness :
  let B0 := Toy.binary 4096 Toy.prog_switch true in
  let jt := MkJmptable 4096 8192 [4098; 4099; 4098] "jmptable_0x2000" in
  let d0 := set_jmptables {[4096 := jt]} empty_dis in
  ∃ s', get_graph_body (U := Toy.utils) (B := B0) (D := Toy.decoder)
          CS_ARCH_X86 (get_graph_init 4096 d0) 4096 [] = Ok s'
        ∧ link_out (gph s') !! 4096 = Some [4098; 4099; 4098]
        ∧ stack s' = [4098; 4099; 4098].
Proof.
  intros B0 jt d0.
  destruct (get_graph_indirect_jump
              (U := Toy.utils) (B := B0) (D := Toy.decoder) CS_ARCH_X86
              (get_graph_init 4096 d0) 4096 []
              (MkInst 4096 2 Toy.ID_JMP [Operand CS_OP_REG 0])
              (lazy_disasm (B := B0) (D := Toy.decoder) 4096 (-1) d0).2
              (Operand CS_OP_REG 0))
    as (s' & Hbody & _ & _ & Hout & Hstk & _).
  - reflexivity.
  - reflexivity.
  - reflexivity.
  - reflexivity.
  - reflexivity.
  - vm_compute. discriminate.
  - apply out_in_nodes_init.
  - exists s'. split; [exact Hbody|]. split; [exact Hout|exact Hstk].
Defined.

Lemma get_graph_mips_delay_slot_witness :
  let B0 := Toy.binary 4096 Toy.prog_je true in
  let s := get_graph_init 4096 empty_dis in
  get_graph_body (U := Toy.utils) (B := B0) (D := Toy.decoder)
    CS_ARCH_MIPS s 4096 [] = Raise AttributeError
  ∧ ∀ fuel, get_graph_loop (U := Toy.utils) (B := B0) (D := Toy.decoder)
      CS_ARCH_MIPS (S fuel) s = Some (Raise AttributeError).
Proof.
  intros B0 s.
  set (d1 := (lazy_disasm (B := B0) (D := Toy.decoder) 4096 (-1) empty_dis).2).
  apply (proj1 (get_graph_mips_delay_slot
           (U := Toy.utils) (B := B0) (D := Toy.decoder) CS_ARCH_MIPS
           s 4096 []
           (MkInst 4096 2 Toy.ID_JE [Operand CS_OP_IMM 4098])
           d1 (Operand CS_OP_IMM 4098)
           eq_refl eq_refl eq_refl eq_refl eq_refl eq_refl eq_refl eq_refl
           eq_refl)
         (lazy_disasm (B := B0) (D := Toy.decoder) 4098 (-1) d1).2).
  reflexivity.
Defined.

(** ** Retraction *)

(** C1: the program [je 4098] at 4096, followed at 4098 by a byte that does
    not decode.  The jump's taken and fallthrough addresses are both 4098, so
    the first iteration gives the node 4096 the successor sequence
    [4098; 4098] and 4098 the predecessor 4096.  When 4098 then fails to
    decode, the retraction removes one occurrence only: [get_graph] returns a
    graph in which 4096 still has an edge to 4098 while 4098 has no incoming
    entry. *)
Theorem get_graph_retraction_leaves_edge :
  let B0 := Toy.binary 4096 Toy.prog_je true in
  (∃ s1, get_graph_body (U := Toy.utils) (B := B0) (D := Toy.decoder)
           CS_ARCH_X86 (get_graph_init 4096 empty_dis) 4096 [] = Ok s1
         ∧ link_out (gph s1) !! 4096 = Some [4098; 4098]
         ∧ link_in (gph s1) !! 4098 = Some {[4096]}
         ∧ stack s1 = [4098; 4098])
  ∧ ∃ g d', get_graph (U := Toy.utils) (B := B0) (D := Toy.decoder)
              CS_ARCH_X86 3 4096 empty_dis = Some (Ok (Some g, d'))
            ∧ (lazy_disasm (B := B0) (D := Toy.decoder) 4098 (-1) d').1 = None
            ∧ link_out g !! 4096 = Some [4098]
            ∧ link_in g !! 4098 = None.
Proof.
  intros B0. split.
  - eexists. split; [reflexivity|]. split; [reflexivity|].
    split; [|reflexivity]. vm_compute. reflexivity.
  - eexists _, _. split; [vm_compute; reflexivity|].
    split; [reflexivity|]. split; reflexivity.
Qed.

(** Were the predecessors kept as a sequence with one entry per edge, the
    same retraction would fail in its second loop, on the entry the loop has
    just deleted. *)
Example retract_links_repeated_pred :
  retract_links 4098 [4096; 4096] {[4096 := [4098; 4098]]} = Raise KeyError.
Proof. reflexivity. Qed.

(** ** read_array *)

Section read_array_facts.
Context {B : Binary}.
Variables (f : unpack_str) (size_word s_end array_max_size : Z).
Hypothesis size_word_pos : 1 ≤ size_word.

(** The inner loop ends within [length buf] iterations; it keeps [l] equal
    to the length of [array], never lets it pass [array_max_size], and
    makes progress on a buffer that is not empty. *)
Lemma read_array_inner_spec fuel buf ad l array :
  (length buf ≤ fuel)%nat →
  l = Z.of_nat (length array) →
  l < array_max_size →
  ∃ r, read_array_inner fuel f size_word s_end array_max_size buf ad l array
         = Some r
       ∧ match r with
         | InnerReturn a => Z.of_nat (length a) ≤ array_max_size
         | InnerDone _ l' a =>
             l' = Z.of_nat (length a) ∧ l' < array_max_size
             ∧ l ≤ l' ∧ (buf ≠ [] → l < l')
         end.
Proof.
  revert buf ad l array.
  induction fuel as [|fuel IH]; intros buf ad l array Hlen Hl Hmax.
  - destruct buf as [|b buf]; [|simpl in Hlen; lia].
    simpl. eexists. split; [done|]. repeat split; [done|done|lia|done].
  - destruct buf as [|b buf].
    { simpl. eexists. split; [done|]. repeat split; [done|done|lia|done]. }
    cbn [read_array_inner].
    destruct (bool_decide (ad > s_end) || _).
    { eexists. split; [done|]. cbv beta iota. lia. }
    case_bool_decide as Hge.
    { eexists. split; [done|]. cbv beta iota zeta.
      rewrite length_app. simpl. lia. }
    destruct (IH (drop (Z.to_nat size_word) (b :: buf)) (ad + size_word)
                (l + 1) (array ++ [struct_unpack f (take (Z.to_nat size_word) (b :: buf))]))
      as (r & Hr & Hspec).
    + rewrite length_drop. simpl in *. lia.
    + rewrite length_app. simpl. lia.
    + lia.
    + exists r. split; [exact Hr|]. destruct r as [a|ad' l' a]; [done|].
      destruct Hspec as (? & ? & ? & ?). repeat split; [done|done|lia|lia].
Qed.

(** The outer loop ends within [array_max_size - l + 1] iterations, and the
    array it returns has at most [array_max_size] entries. *)
Lemma read_array_outer_spec fuel N ad l array :
  (Z.to_nat (array_max_size - l) < fuel)%nat →
  l = Z.of_nat (length array) →
  ∃ a, read_array_outer fuel f size_word s_end array_max_size N ad l array
         = Some a
       ∧ Z.of_nat (length a) ≤ Z.max array_max_size l.
Proof.
  revert ad l array.
  induction fuel as [|fuel IH]; intros ad l array Hfuel Hl; [lia|].
  cbn [read_array_outer]. case_bool_decide as Hlt.
  2:{ eexists. split; [done|]. lia. }
  destruct (section_stream_read ad N) as [|b buf] eqn:Hbuf.
  { eexists. split; [done|]. lia. }
  destruct (read_array_inner_spec (length (b :: buf)) (b :: buf) ad l array)
    as (r & Hr & Hspec); [done|done|done|].
  rewrite Hr. destruct r as [a|ad' l' a].
  - eexists. split; [done|]. lia.
  - destruct Hspec as (Hl' & Hmax & _ & Hprog).
    specialize (Hprog ltac:(done)).
    destruct (IH ad' l' a) as (a' & Ha' & Hlen); [lia|done|].
    exists a'. split; [exact Ha'|]. lia.
Qed.
End read_array_facts.

(** [read_array] always returns, by a value or an exception, and a returned
    array has at most [array_max_size] entries. *)
Lemma read_array_total {B : Binary} (mode ad array_max_size size_word : Z) :
  ∃ r, read_array mode ad array_max_size size_word = Some r
       ∧ ∀ a, r = Ok a → (length a ≤ Z.to_nat array_max_size)%nat.
Proof.
  unfold read_array.
  destruct (get_unpack_str mode size_word) as [f|e] eqn:Hf.
  2:{ eexists. split; [reflexivity|]. intros a [=]. }
  assert (Hsw : 1 ≤ size_word).
  { unfold get_unpack_str in Hf.
    destruct (Z.eqb_spec size_word 1); [lia|].
    destruct (Z.eqb_spec size_word 2); [lia|].
    destruct (Z.eqb_spec size_word 4); [lia|].
    destruct (Z.eqb_spec size_word 8); [lia|]. discriminate. }
  destruct (get_section_meta ad) as [[[nm start] s_end]|].
  2:{ eexists. split; [reflexivity|]. intros a [=]. }
  destruct (read_array_outer_spec f size_word s_end array_max_size Hsw
              (S (Z.to_nat array_max_size)) (size_word * array_max_size)
              ad 0 []) as (a & Ha & Hlen); [lia|reflexivity|].
  rewrite Ha. eexists. split; [reflexivity|]. intros a' [= <-]. lia.
Qed.

(** ** add_jmptable: the case numbers *)

Lemma case_indices_elem ad tbl case i :
  i ∈ case_indices ad tbl case
  ↔ (case ≤ i)%nat ∧ tbl !! (i - case)%nat = Some ad.
Proof.
  revert case. induction tbl as [|x tbl IH]; intros case; simpl.
  - split; [by intros ?%not_elem_of_nil|by intros [_ ?]].
  - rewrite elem_of_app, IH. case_bool_decide as Hx.
    + subst x. rewrite list_elem_of_singleton. split.
      * intros [->|[Hle Hi]].
        -- split; [lia|]. by rewrite Nat.sub_diag.
        -- split; [lia|]. by replace (i - case)%nat with (S (i - S case)) by lia.
      * intros [Hle Hi]. destruct (decide (i = case)) as [|Hne]; [by left|].
        right. split; [lia|].
        by replace (i - case)%nat with (S (i - S case)) in Hi by lia.
    + split.
      * intros [?%not_elem_of_nil|[Hle Hi]]; [done|].
        split; [lia|]. by replace (i - case)%nat with (S (i - S case)) by lia.
      * intros [Hle Hi]. right.
        destruct (decide (i = case)) as [->|Hne].
        -- rewrite Nat.sub_diag in Hi. simpl in Hi. congruence.
        -- split; [lia|].
           by replace (i - case)%nat with (S (i - S case)) in Hi by lia.
Qed.

Lemma case_indices_sorted ad tbl case :
  StronglySorted lt (case_indices ad tbl case).
Proof.
  revert case. induction tbl as [|x tbl IH]; intros case; simpl.
  - constructor.
  - case_bool_decide; simpl; [|apply IH].
    constructor; [apply IH|]. apply Forall_forall.
    intros i Hi%case_indices_elem. lia.
Qed.

Lemma case_indices_nonempty ad tbl case :
  ad ∈ tbl → case_indices ad tbl case ≠ [].
Proof.
  intros Hin. apply list_elem_of_lookup in Hin as [i Hi].
  intros Hnil.
  assert (Hel : (case + i)%nat ∈ case_indices ad tbl case).
  { apply case_indices_elem. split; [lia|].
    by replace (case + i - case)%nat with i by lia. }
  rewrite Hnil in Hel. by apply not_elem_of_nil in Hel.
Qed.

Lemma init_cases_lookup tbl ad :
  init_cases tbl !! ad = if decide (ad ∈ tbl) then Some [] else None.
Proof.
  unfold init_cases.
  enough (Hgen : ∀ m : gmap Z (list nat),
    foldl (fun m ad => <[ad := []]> m) m tbl !! ad
    = if decide (ad ∈ tbl) then Some [] else m !! ad).
  { rewrite Hgen. by rewrite lookup_empty. }
  induction tbl as [|x tbl IH]; intros m; [done|].
  cbn [foldl]. rewrite IH.
  destruct (decide (ad ∈ tbl)) as [Hin|Hnin].
  - by rewrite decide_True by (by apply list_elem_of_further).
  - destruct (decide (ad = x)) as [->|Hne].
    + rewrite decide_True by apply list_elem_of_here.
      by rewrite lookup_insert_eq.
    + rewrite decide_False by (intros [?|?]%elem_of_cons; done).
      by rewrite lookup_insert_ne.
Qed.

(** The numbering loop never misses a key, and appends to the list of each
    destination the positions at which the table holds it. *)
Lemma number_cases_spec tbl case (m : gmap Z (list nat)) :
  (∀ ad, ad ∈ tbl → is_Some (m !! ad)) →
  ∃ m', number_cases tbl case m = Ok m'
        ∧ ∀ ad, m' !! ad = (fun l => l ++ case_indices ad tbl case) <$> m !! ad.
Proof.
  revert case m. induction tbl as [|x tbl IH]; intros case m Hdom.
  - exists m. split; [done|]. intros ad. simpl.
    destruct (m !! ad); simpl; [by rewrite app_nil_r|done].
  - destruct (Hdom x) as [l Hl]; [apply list_elem_of_here|].
    cbn [number_cases]. rewrite Hl.
    destruct (IH (S case) (<[x := l ++ [case]]> m)) as (m' & Hm' & Hlook).
    { intros ad Hin. destruct (decide (ad = x)) as [->|Hne].
      - rewrite lookup_insert_eq. by eexists.
      - rewrite lookup_insert_ne by done.
        apply Hdom. by apply list_elem_of_further. }
    exists m'. split; [exact Hm'|]. intros ad. rewrite Hlook.
    cbn [case_indices]. destruct (decide (x = ad)) as [->|Hne].
    + rewrite lookup_insert_eq, Hl. simpl.
      rewrite bool_decide_eq_true_2 by done. by rewrite <- app_assoc.
    + rewrite lookup_insert_ne by done.
      by rewrite bool_decide_eq_false_2 by done.
Qed.

Lemma all_cases_spec tbl :
  ∃ cases, all_cases tbl = Ok cases
    ∧ ∀ ad, cases !! ad
            = if decide (ad ∈ tbl) then Some (case_indices ad tbl 0) else None.
Proof.
  destruct (number_cases_spec tbl 0 (init_cases tbl)) as (m & Hm & Hlook).
  { intros ad Hin. rewrite init_cases_lookup, decide_True by done. by eexists. }
  exists m. split; [exact Hm|]. intros ad.
  rewrite Hlook, init_cases_lookup. by destruct (decide (ad ∈ tbl)).
Qed.

Lemma total_cases_insert_fresh (m : gmap Z (list nat)) ad l :
  m !! ad = None →
  total_cases (<[ad := l]> m) = (length l + total_cases m)%nat.
Proof.
  intros Hnone. unfold total_cases.
  rewrite map_fold_insert_L; [done| |done].
  intros. lia.
Qed.

Lemma total_cases_update (m : gmap Z (list nat)) ad l l' :
  m !! ad = Some l →
  (total_cases (<[ad := l']> m) + length l = total_cases m + length l')%nat.
Proof.
  intros Hl.
  rewrite <- (insert_delete_eq m ad l').
  rewrite <- (insert_delete_id m ad l) at 2 by done.
  rewrite !total_cases_insert_fresh by apply lookup_delete_eq. lia.
Qed.

Lemma total_cases_all_nil (m : gmap Z (list nat)) :
  (∀ ad l, m !! ad = Some l → l = []) → total_cases m = 0%nat.
Proof.
  unfold total_cases.
  apply (map_fold_weak_ind
           (fun n (m : gmap Z (list nat)) =>
              (∀ ad l, m !! ad = Some l → l = []) → n = 0%nat)).
  - done.
  - intros ad l m0 n Hnone IH Hall.
    rewrite (Hall ad l) by apply lookup_insert_eq. simpl.
    apply IH. intros ad' l' Hl'. apply (Hall ad').
    rewrite lookup_insert_ne; [done|]. intros ->. congruence.
Qed.

(** Each pass of the numbering loop adds one case. *)
Lemma number_cases_total tbl case (m m' : gmap Z (list nat)) :
  number_cases tbl case m = Ok m' →
  total_cases m' = (total_cases m + length tbl)%nat.
Proof.
  revert case m. induction tbl as [|x tbl IH]; intros case m; simpl.
  - intros [= <-]. lia.
  - destruct (m !! x) as [l|] eqn:Hl; [|discriminate].
    intros Hm'. apply IH in Hm'. rewrite Hm'.
    pose proof (total_cases_update m x l (l ++ [case]) Hl) as Hup.
    rewrite length_app in Hup. simpl in Hup. lia.
Qed.

Lemma all_cases_total tbl cases :
  all_cases tbl = Ok cases → total_cases cases = length tbl.
Proof.
  intros Hc. apply number_cases_total in Hc. rewrite Hc.
  rewrite total_cases_all_nil; [done|].
  intros ad l. rewrite init_cases_lookup. case_decide; congruence.
Qed.

(** The annotation loop writes the comment of every destination and leaves
    the other addresses as they were. *)
Lemma annotate_cases_lookup (cases : gmap Z (list nat)) nm pc ad :
  annotate_cases cases nm pc !! ad =
    match cases !! ad with
    | Some l => Some [case_comment l nm]
    | None => pc !! ad
    end.
Proof.
  unfold annotate_cases. revert ad.
  apply (map_fold_weak_ind
           (fun (r : gmap Z (list string)) (m : gmap Z (list nat)) =>
              ∀ ad, r !! ad = match m !! ad with
                              | Some l => Some [case_comment l nm]
                              | None => pc !! ad
                              end)).
  - intros ad. by rewrite lookup_empty.
  - intros k l m r Hnone IH ad. destruct (decide (ad = k)) as [->|Hne].
    + by rewrite !lookup_insert_eq.
    + rewrite !lookup_insert_ne by done. apply IH.
Qed.

(** [add_jmptable] always returns, by a value or an exception. *)
Lemma add_jmptable_total {B : Binary}
    (mode inst_addr table_addr entry_size nb_entries : Z) (d : Disassembler) :
  is_Some (add_jmptable mode inst_addr table_addr entry_size nb_entries d).
Proof.
  unfold add_jmptable. destruct (add_symbol _ _ _) as [[nm d1]|e]; [|by eexists].
  destruct (read_array_total mode table_addr nb_entries entry_size)
    as (r & Hr & _).
  rewrite Hr. destruct r as [tbl|e]; [|by eexists].
  destruct (all_cases_spec tbl) as (cases & Hc & _).
  rewrite Hc. by eexists.
Qed.

(** *** The text of a case comment determines the case numbers *)

Section case_text.
Local Arguments String.append !_ _ /.

Lemma string_app_assoc (s1 s2 s3 : string) :
  ((s1 +:+ s2) +:+ s3 = s1 +:+ (s2 +:+ s3))%string.
Proof.
  induction s1 as [|c s1 IH]; simpl; [done|by f_equal].
Qed.

Lemma pretty_N_char_digit x : is_digit (pretty_N_char x) = true.
Proof. unfold pretty_N_char. by repeat case_match. Qed.

Lemma pretty_N_go_digits x s :
  digits s = true → digits (pretty_N_go x s) = true.
Proof.
  revert s. induction (N.lt_wf_0 x) as [x _ IH]; intros s Hs.
  assert (x = 0 ∨ 0 < x)%N as [->|Hx] by lia.
  - by rewrite pretty_N_go_0.
  - rewrite pretty_N_go_step by done. apply IH.
    + by apply N.div_lt.
    + simpl. by rewrite pretty_N_char_digit.
Qed.

Lemma pretty_N_go_nonempty x s : s ≠ ""%string → pretty_N_go x s ≠ ""%string.
Proof.
  revert s. induction (N.lt_wf_0 x) as [x _ IH]; intros s Hs.
  assert (x = 0 ∨ 0 < x)%N as [->|Hx] by lia.
  - by rewrite pretty_N_go_0.
  - rewrite pretty_N_go_step by done. apply IH; [by apply N.div_lt|done].
Qed.

(** The decimal numeral of a case number: digits, at least one. *)
Lemma pretty_nat_digits (n : nat) :
  digits (pretty n) = true ∧ pretty n ≠ ""%string.
Proof.
  unfold pretty, pretty_nat, pretty, pretty_N.
  destruct (decide (N.of_nat n = 0%N)) as [|Hn]; [done|]. split.
  - by apply pretty_N_go_digits.
  - rewrite pretty_N_go_step by lia. by apply pretty_N_go_nonempty.
Qed.

(** A numeral followed by something that cannot continue it is read back
    in one way only. *)
Lemma digits_prefix_inj (a b r r' : string) :
  digits a = true → digits b = true → stops r → stops r' →
  (a +:+ r)%string = (b +:+ r')%string → a = b ∧ r = r'.
Proof.
  revert b. induction a as [|c a IH]; intros [|c' b] Ha Hb Hr Hr'; simpl.
  - done.
  - intros ->. simpl in Hr, Hb. apply andb_true_iff in Hb as [Hc _].
    congruence.
  - intros <-. simpl in Hr', Ha. apply andb_true_iff in Ha as [Hc _].
    congruence.
  - intros [= -> Heq]. simpl in Ha, Hb.
    apply andb_true_iff in Ha as [_ Ha]. apply andb_true_iff in Hb as [_ Hb].
    destruct (IH b Ha Hb Hr Hr' Heq) as [-> ->]. done.
Qed.

(** What follows the first numeral of a case comment. *)
Lemma case_list_unfold (x : nat) (l : list nat) (sfx : string) :
  (String.concat ", " (map pretty (x :: l)) +:+ sfx)%string
  = (pretty x +:+
       match l with
       | [] => sfx
       | _ :: _ => ", " +:+ (String.concat ", " (map pretty l) +:+ sfx)
       end)%string.
Proof.
  destruct l as [|y l]; [done|].
  cbn [map String.concat]. by rewrite !string_app_assoc.
Qed.

Lemma case_list_inj (sfx : string) (l l' : list nat) :
  stops sfx → sfx ≠ ""%string → (∀ t, sfx ≠ String "," t) →
  (String.concat ", " (map pretty l) +:+ sfx)%string
  = (String.concat ", " (map pretty l') +:+ sfx)%string →
  l = l'.
Proof.
  intros Hstop Hne Hcomma.
  assert (Hrest : ∀ k : list nat,
    stops match k with
          | [] => sfx
          | _ :: _ =>
              (", " +:+ (String.concat ", " (map pretty k) +:+ sfx))%string
          end).
  { intros [|? ?]; [done|reflexivity]. }
  assert (Hhead : ∀ (x : nat) (k : list nat),
    (String.concat ", " (map pretty (x :: k)) +:+ sfx)%string ≠ sfx).
  { intros x k Heq. rewrite case_list_unfold in Heq.
    destruct (pretty_nat_digits x) as [Hd Hn].
    destruct (digits_prefix_inj (pretty x) "" _ sfx Hd eq_refl
                (Hrest k) Hstop Heq) as [Hx _].
    done. }
  revert l'. induction l as [|x l IH]; intros [|y l'] Heq.
  - done.
  - exfalso. by apply (Hhead y l').
  - exfalso. by apply (Hhead x l).
  - rewrite !case_list_unfold in Heq.
    destruct (pretty_nat_digits x) as [Hdx _].
    destruct (pretty_nat_digits y) as [Hdy _].
    destruct (digits_prefix_inj _ _ _ _ Hdx Hdy (Hrest l) (Hrest l') Heq)
      as [Hxy Hr].
    apply (inj pretty) in Hxy as ->. f_equal.
    destruct l as [|x' l], l' as [|y' l'].
    + done.
    + exfalso. simpl in Hr. by apply (Hcomma _ Hr).
    + exfalso. simpl in Hr. symmetry in Hr. by apply (Hcomma _ Hr).
    + apply IH. simpl in Hr. by simplify_eq.
Qed.

(** The case numbers can be read back off a case comment: two lists of case
    numbers with the same comment are the same list. *)
Lemma case_comment_inj (nm : string) (l l' : list nat) :
  case_comment l nm = case_comment l' nm → l = l'.
Proof.
  unfold case_comment. intros Heq.
  apply (case_list_inj ("  " +:+ nm)%string); [reflexivity|done|done|].
  by apply (inj (String.append "case ")) in Heq.
Qed.
End case_text.

(** C6: after a successful [add_jmptable] the table registered at
    [inst_addr] is the array [read_array] returned, of at most [nb_entries]
    entries, under the name "jmptable_0x" followed by the table address in
    hexadecimal; every address in it has a case list, not empty, and its
    comment is the one line "case ", the numbers of that list in decimal
    separated by ", ", two spaces and the name of the table, a text from
    which the case list can be read back: no other list of numbers gives the
    same line; the case list of an address holds exactly the positions 0, 1,
    2, ... at which the table has this address, in increasing order; and the
    case lists have as many entries in total as the table. *)
Theorem add_jmptable_cases {B : Binary}
    (mode inst_addr table_addr entry_size nb_entries : Z)
    (d d' : Disassembler) :
  add_jmptable mode inst_addr table_addr entry_size nb_entries d = Some (Ok d') →
  ∃ jt cases,
    jmptables d' !! inst_addr = Some jt
    ∧ name jt = ("jmptable_0x" +:+ py_hex table_addr)%string
    ∧ read_array mode table_addr nb_entries entry_size = Some (Ok (table jt))
    ∧ (length (table jt) ≤ Z.to_nat nb_entries)%nat
    ∧ all_cases (table jt) = Ok cases
    ∧ (∀ ad, ad ∈ table jt →
         ∃ l : list nat,
           cases !! ad = Some l ∧ l ≠ []
           ∧ previous_comments d' !! ad
             = Some [("case " +:+ String.concat ", " (map pretty l)
                      +:+ "  " +:+ name jt)%string]
           ∧ ∀ l' : list nat,
               previous_comments d' !! ad
               = Some [("case " +:+ String.concat ", " (map pretty l')
                        +:+ "  " +:+ name jt)%string] →
               l' = l)
    ∧ (∀ ad l, cases !! ad = Some l →
         StronglySorted lt l ∧ ∀ i, i ∈ l ↔ table jt !! i = Some ad)
    ∧ total_cases cases = length (table jt).
Proof.
  unfold add_jmptable.
  destruct (add_symbol _ _ _) as [[nm d1]|e] eqn:Hsym; [|discriminate].
  assert (Hnm : nm = ("jmptable_0x" +:+ py_hex table_addr)%string).
  { revert Hsym. unfold add_symbol. repeat case_match; simpl; congruence. }
  destruct (read_array_total mode table_addr nb_entries entry_size)
    as (r & Hr & Hlen).
  rewrite Hr. destruct r as [tbl|e]; [|discriminate].
  destruct (all_cases_spec tbl) as (cases & Hc & Hlook).
  rewrite Hc. intros [= <-].
  exists (MkJmptable inst_addr table_addr tbl nm), cases. simpl.
  split; [by rewrite lookup_insert_eq|]. split; [done|]. split; [done|].
  split; [by apply Hlen|]. split; [done|]. split; [|split].
  - intros ad Hin. exists (case_indices ad tbl 0).
    assert (Hcl : cases !! ad = Some (case_indices ad tbl 0))
      by (by rewrite Hlook, decide_True).
    assert (Hcom : annotate_cases cases nm (previous_comments d1) !! ad
                   = Some [case_comment (case_indices ad tbl 0) nm])
      by (by rewrite annotate_cases_lookup, Hcl).
    split; [done|]. split; [by apply case_indices_nonempty|].
    split; [exact Hcom|].
    intros l' Hl'. rewrite Hcom in Hl'.
    change (Some [case_comment (case_indices ad tbl 0) nm]
            = Some [case_comment l' nm]) in Hl'.
    symmetry. apply (case_comment_inj nm). congruence.
  - intros ad l. rewrite Hlook. case_decide; [|discriminate].
    intros [= <-]. split; [apply case_indices_sorted|].
    intros i. rewrite case_indices_elem, Nat.sub_0_r.
    split; [by intros [_ ?]|]. intros ?. split; [lia|done].
  - by apply all_cases_total.
Qed.

Lemma add_jmptable_cases_witness :
  let B0 := Toy.binary 8192 Toy.prog_table false in
  ∃ d', add_jmptable (B := B0) 0 4096 8192 2 7 empty_dis = Some (Ok d')
    ∧ previous_comments d' !! 1 = Some ["case 0, 2  jmptable_0x2000"%string]
    ∧ ∃ jt cases,
        jmptables d' !! 4096 = Some jt
        ∧ name jt = ("jmptable_0x" +:+ py_hex 8192)%string
        ∧ read_array (B := B0) 0 8192 7 2 = Some (Ok (table jt))
        ∧ (length (table jt) ≤ Z.to_nat 7)%nat
        ∧ all_cases (table jt) = Ok cases
        ∧ (∀ ad, ad ∈ table jt →
             ∃ l : list nat,
               cases !! ad = Some l ∧ l ≠ []
               ∧ previous_comments d' !! ad
                 = Some [("case " +:+ String.concat ", " (map pretty l)
                          +:+ "  " +:+ name jt)%string]
               ∧ ∀ l' : list nat,
                   previous_comments d' !! ad
                   = Some [("case " +:+ String.concat ", " (map pretty l')
                            +:+ "  " +:+ name jt)%string] →
                   l' = l)
        ∧ (∀ ad l, cases !! ad = Some l →
             StronglySorted lt l ∧ ∀ i, i ∈ l ↔ table jt !! i = Some ad)
        ∧ total_cases cases = length (table jt).
Proof.
  intros B0. eexists. split; [vm_compute; reflexivity|].
  split; [vm_compute; reflexivity|].
  apply (add_jmptable_cases (B := B0) 0 4096 8192 2 7 empty_dis).
  vm_compute. reflexivity.
Defined.

(** The table 1, 2, 1, 3: the destination 1 is reached by the cases 0 and 2. *)
Example add_jmptable_fallthrough_cases :
  let B0 := Toy.binary 8192 Toy.prog_table false in
  ∃ d', add_jmptable (B := B0) 0 4096 8192 2 4 empty_dis = Some (Ok d')
    ∧ table <$> jmptables d' !! 4096 = Some [1; 2; 1; 3]
    ∧ (∃ cases, all_cases [1; 2; 1; 3] = Ok cases
                ∧ cases !! 1 = Some [0; 2]%nat)
    ∧ previous_comments d' !! 1 = Some ["case 0, 2  jmptable_0x2000"%string]
    ∧ previous_comments d' !! 2 = Some ["case 1  jmptable_0x2000"%string]
    ∧ previous_comments d' !! 3 = Some ["case 3  jmptable_0x2000"%string]
    ∧ inline_comments d' !! 4096 = Some "switch statement jmptable_0x2000"%string.
Proof.
  intros B0. eexists. split; [vm_compute; reflexivity|].
  split; [vm_compute; reflexivity|].
  split; [eexists; split; [reflexivity|vm_compute; reflexivity]|].
  repeat split; vm_compute; reflexivity.
Qed.


(** ** Termination of the worklist loop *)

Lemma max_push_table (j : gmap Z Jmptable) a jt :
  j !! a = Some jt → (length (table jt) ≤ max_push j)%nat.
Proof.
  intros Hj. apply elem_of_map_to_list in Hj. unfold max_push.
  induction (map_to_list j) as [|p l IH]; [by apply not_elem_of_nil in Hj|].
  apply elem_of_cons in Hj as [<-|Hin]; simpl in *; [lia|].
  specialize (IH Hin). lia.
Qed.

Lemma size_difference_insert (univ nds : gset Z) a :
  a ∈ univ → a ∉ nds →
  (size (univ ∖ ({[a]} ∪ nds)) < size (univ ∖ nds))%nat.
Proof.
  intros Hu Hn. apply subset_size. split.
  - apply difference_mono_l, union_subseteq_r.
  - intros Hsub. assert (Ha : a ∈ univ ∖ nds) by (by apply elem_of_difference).
    apply Hsub in Ha. apply elem_of_difference in Ha as [_ Ha].
    apply Ha, elem_of_union_l. by apply elem_of_singleton.
Qed.

Section termination.
Context {U : ArchUtils} {B : Binary} {D : Decoder}.
Variable arch : Z.
Variable univ : gset Z.
Variable k : nat.
Variable jts : gmap Z Jmptable.
Hypothesis univ_decode : ∀ a i,
  is_Some (get_section_meta a) →
  i ∈ md_disasm (section_stream_read a 1024) a → i_address i ∈ univ.
Hypothesis k_two : (2 ≤ k)%nat.
Hypothesis k_table : ∀ a jt, jts !! a = Some jt → (length (table jt) ≤ k)%nat.

(** [lazy_disasm] answers with an instruction of [univ] and keeps the cache
    inside [univ]. *)
Lemma lazy_disasm_univ addr stay d r d' :
  cache_ok univ d →
  lazy_disasm addr stay d = (r, d') →
  cache_ok univ d' ∧ ∀ i, r = Some i → i_address i ∈ univ.
Proof.
  intros Hok. unfold lazy_disasm.
  destruct (get_section_meta addr) as [[[nm start] e]|] eqn:Hm.
  2:{ intros [= <- <-]. by split. }
  destruct (_ && _). { intros [= <- <-]. by split. }
  destruct (code d !! addr) as [i|] eqn:Hc.
  { intros [= <- <-]. split; [done|]. intros i' [= <-]. by apply (Hok addr). }
  cbv zeta.
  assert (Hgen : ∀ i, i ∈ md_disasm (section_stream_read addr 1024) addr →
                      i_address i ∈ univ).
  { intros i. apply univ_decode. rewrite Hm. by eexists. }
  destruct (md_disasm (section_stream_read addr 1024) addr) as [|first rest].
  { intros [= <- <-]. by split. }
  intros [= <- <-]. split.
  - intros a i Hi. simpl in Hi. apply fill_code_new in Hi as [Hi|[Hin _]].
    + by apply (Hok a).
    + apply Hgen. by apply list_elem_of_further.
  - intros i [= <-]. apply Hgen, list_elem_of_here.
Qed.

Lemma mips_prefetch_univ inst pf0 d pf d' :
  cache_ok univ d →
  mips_prefetch arch inst pf0 d = (pf, d') →
  cache_ok univ d' ∧ jmptables d' = jmptables d.
Proof.
  intros Hok Hpf. split; [|by apply mips_prefetch_jmptables in Hpf].
  unfold mips_prefetch, prefetch_inst in Hpf.
  destruct (arch =? CS_ARCH_MIPS).
  - by apply lazy_disasm_univ in Hpf as [? _].
  - by injection Hpf as <- <-.
Qed.

Local Ltac keep_inv := split; [done|cbn [dis]; congruence].

(** Making a node of a new instruction pays for the addresses pushed. *)
Lemma measure_expand (g : Graph) (s' : loop_state) a x pushed stk :
  a ∈ univ →
  nodes g !! a = None →
  nodes (gph s') = <[a := x]> (nodes g) →
  stack s' = pushed ++ stk →
  (length pushed ≤ k)%nat →
  (get_graph_measure univ k s'
   ≤ length stk + k * size (univ ∖ dom (nodes g)))%nat.
Proof.
  intros Hu Hn Hnodes Hstk Hlen. unfold get_graph_measure.
  rewrite Hnodes, Hstk, dom_insert_L, length_app.
  pose proof (size_difference_insert univ (dom (nodes g)) a Hu) as Hlt.
  specialize (Hlt ltac:(by apply not_elem_of_dom)).
  nia.
Qed.

(** One iteration keeps the invariant and decreases the variant. *)
Lemma get_graph_body_decreases s ad stk s' :
  loop_inv univ jts s →
  get_graph_body arch s ad stk = Ok s' →
  loop_inv univ jts s'
  ∧ (get_graph_measure univ k s'
     ≤ length stk + k * size (univ ∖ dom (nodes (gph s))))%nat.
Proof.
  intros [Hok Hjt]. unfold get_graph_body.
  destruct (lazy_disasm ad (-1) (dis s)) as [r d1] eqn:Hdec.
  pose proof (lazy_disasm_jmptables _ _ _ _ _ Hdec) as Hjt1.
  apply (lazy_disasm_univ _ _ _ _ _ Hok) in Hdec as [Hok1 Hr].
  destruct r as [inst|].
  2:{ destruct (retract ad (gph s)) as [g'|] eqn:Hret; [|discriminate].
      simpl. intros [= <-]. split; [keep_inv|].
      unfold get_graph_measure. simpl.
      by rewrite (retract_nodes _ _ _ Hret). }
  specialize (Hr inst eq_refl).
  destruct (exists_ (gph s) inst) eqn:Hex.
  { intros [= <-]. split; [keep_inv|done]. }
  assert (Hnone : nodes (gph s) !! i_address inst = None).
  { unfold exists_ in Hex. apply bool_decide_eq_false in Hex.
    by apply eq_None_not_Some. }
  destruct (is_ret inst).
  { destruct (mips_prefetch arch inst (prefetch s) d1) as [pf d2] eqn:Hpf.
    apply (mips_prefetch_univ _ _ _ _ _ Hok1) in Hpf as [Hok2 Hjt2].
    intros [= <-]. split; [keep_inv|].
    by apply (measure_expand (gph s) _ (i_address inst)
                (inst :: option_list pf) [] stk); [| | | |simpl; lia]. }
  destruct (is_uncond_jump inst).
  { destruct (mips_prefetch arch inst (prefetch s) d1) as [pf d2] eqn:Hpf.
    apply (mips_prefetch_univ _ _ _ _ _ Hok1) in Hpf as [Hok2 Hjt2].
    destruct (last_operand inst) as [op|]; [|discriminate]. simpl.
    destruct (op_type op =? CS_OP_IMM).
    { intros [= <-]. split; [keep_inv|].
      by apply (measure_expand (gph s) _ (i_address inst)
                  (inst :: option_list pf) [op_imm op] stk);
        [| | | |simpl; lia]. }
    destruct (jmptables d2 !! i_address inst) as [jt|] eqn:Hjtl.
    - intros [= <-]. split; [keep_inv|].
      apply (measure_expand (gph s) _ (i_address inst)
               (inst :: option_list pf) (reverse (table jt)) stk);
        [done|done|done|done|].
      rewrite length_reverse. apply (k_table (i_address inst)). congruence.
    - intros [= <-]. split; [keep_inv|].
      by apply (measure_expand (gph s) _ (i_address inst)
                  (inst :: option_list pf) [] stk); [| | | |simpl; lia]. }
  destruct (is_cond_jump inst).
  { destruct (mips_prefetch arch inst (prefetch s) d1) as [pf d2] eqn:Hpf.
    apply (mips_prefetch_univ _ _ _ _ _ Hok1) in Hpf as [Hok2 Hjt2].
    destruct (last_operand inst) as [op|]; [|discriminate]. simpl.
    destruct (op_type op =? CS_OP_IMM).
    - destruct (if arch =? CS_ARCH_MIPS then _ else _) as [direct_nxt|];
        [|discriminate]. simpl.
      intros [= <-]. split; [keep_inv|].
      by apply (measure_expand (gph s) _ (i_address inst)
                  (inst :: option_list pf) [op_imm op; direct_nxt] stk);
        [| | | |simpl; lia].
    - intros [= <-]. split; [keep_inv|].
      by apply (measure_expand (gph s) _ (i_address inst)
                  (inst :: option_list pf) [] stk); [| | | |simpl; lia]. }
  intros [= <-]. split; [keep_inv|].
  by apply (measure_expand (gph s) _ (i_address inst)
              (inst :: option_list None) [i_address inst + i_size inst] stk);
    [| | | |simpl; lia].
Qed.

(** With fuel for the variant the loop comes to an end, by emptying the stack
    or by an exception. *)
Lemma get_graph_loop_terminates fuel s :
  loop_inv univ jts s →
  (get_graph_measure univ k s ≤ fuel)%nat →
  is_Some (get_graph_loop arch fuel s).
Proof.
  revert s. induction fuel as [|fuel IH]; intros s Hinv Hfuel.
  - destruct (stack s) as [|ad stk] eqn:Hstk.
    + rewrite get_graph_loop_nil by done. by eexists.
    + unfold get_graph_measure in Hfuel. rewrite Hstk in Hfuel.
      simpl in Hfuel. lia.
  - destruct (stack s) as [|ad stk] eqn:Hstk.
    + rewrite get_graph_loop_nil by done. by eexists.
    + rewrite (get_graph_loop_cons arch fuel s ad stk Hstk).
      destruct (get_graph_body arch s ad stk) as [s'|e] eqn:Hbody;
        [|by eexists].
      apply (get_graph_body_decreases _ _ _ _ Hinv) in Hbody as [Hinv' Hm].
      apply IH; [done|].
      unfold get_graph_measure in Hfuel. rewrite Hstk in Hfuel.
      simpl in Hfuel. lia.
Qed.
End termination.

Lemma Toy_meta_in_sections start data exec a nm s e :
  get_section_meta (Binary := Toy.binary start data exec) a = Some (nm, s, e) →
  (nm, s, e) ∈ [(".text"%string, start, start + Z.of_nat (length data) - 1)]
  ∧ s ≤ a ≤ e.
Proof.
  simpl. destruct (Toy.covers start data a) eqn:Hc; [|discriminate].
  intros [= <- <- <-]. split; [apply list_elem_of_here|].
  unfold Toy.covers in Hc. lia.
Qed.

(** The "already a node" test: a popped address whose instruction is a node
    changes neither the graph nor the stack. *)
Lemma get_graph_body_revisit {U : ArchUtils} {B : Binary} {D : Decoder}
    arch s ad stk inst d1 :
  lazy_disasm ad (-1) (dis s) = (Some inst, d1) →
  exists_ (gph s) inst = true →
  get_graph_body arch s ad stk = Ok (MkLoop (gph s) stk (prefetch s) d1).
Proof. intros Hdec Hex. unfold get_graph_body. by rewrite Hdec, Hex. Qed.

(** C4: on a binary whose [get_section_meta] answers from a section table
    [sections], with a section that covers the address, [get_graph] returns
    for every entry address and every state of the object as soon as it is
    given [get_graph_fuel sections d] iterations: each iteration either only
    pops, or makes a node of an address that was none, of which there are
    finitely many, and pushes at most [max_push] addresses. *)
Theorem get_graph_terminates {U : ArchUtils} {B : Binary} {D : Decoder}
    (arch : Z) (sections : list (string * Z * Z)) (entry : Z)
    (d : Disassembler) (fuel : nat) :
  (∀ a nm start e, get_section_meta a = Some (nm, start, e) →
     (nm, start, e) ∈ sections ∧ start ≤ a ≤ e) →
  (get_graph_fuel sections d ≤ fuel)%nat →
  ∃ r, get_graph arch fuel entry d = Some r.
Proof.
  intros Hmeta Hfuel. unfold get_graph.
  destruct (load_arch_module arch) as [_|exn]; [|by eexists].
  assert (Hterm : is_Some (get_graph_loop arch fuel (get_graph_init entry d))).
  2:{ destruct Hterm as [r Hr]. rewrite Hr. destruct r; by eexists. }
  apply (get_graph_loop_terminates arch (node_universe sections d)
           (max_push (jmptables d)) (jmptables d)).
  - intros a i [[[nm start] e] Hm] Hi.
    apply Hmeta in Hm as [Hsec Hrange]. unfold node_universe.
    apply elem_of_list_to_set, elem_of_app. left.
    apply list_elem_of_bind. exists a. split.
    + apply list_elem_of_fmap. by exists i.
    + unfold section_addrs. apply list_elem_of_bind.
      exists (nm, start, e). split; [|done].
      apply elem_of_seqZ. simpl. lia.
  - unfold max_push. lia.
  - intros a jt. apply max_push_table.
  - split; [|done]. intros a i Hi. unfold node_universe.
    apply elem_of_list_to_set, elem_of_app. right.
    apply list_elem_of_fmap. exists i. split; [done|].
    apply list_elem_of_fmap. exists (a, i). split; [done|].
    by apply elem_of_map_to_list.
  - unfold get_graph_measure, get_graph_fuel in *.
    change (length (stack (get_graph_init entry d))) with 1%nat.
    change (nodes (gph (get_graph_init entry d)))
      with (∅ : gmap Z (list Inst)).
    pose proof (subseteq_size
      (node_universe sections d ∖ dom (∅ : gmap Z (list Inst)))
      (node_universe sections d)) as Hsz.
    specialize (Hsz ltac:(apply subseteq_difference_l; done)).
    nia.
Qed.

Lemma get_graph_terminates_witness :
  let B0 := Toy.binary 4096 Toy.prog_je true in
  let sections := [(".text"%string, 4096, 4098)] in
  ∃ r, get_graph (U := Toy.utils) (B := B0) (D := Toy.decoder) CS_ARCH_X86
         (get_graph_fuel (B := B0) (D := Toy.decoder) sections empty_dis)
         4096 empty_dis = Some r.
Proof.
  intros B0 sections.
  apply (get_graph_terminates (U := Toy.utils) (B := B0) (D := Toy.decoder)
           CS_ARCH_X86 sections 4096 empty_dis).
  - exact (Toy_meta_in_sections 4096 Toy.prog_je true).
  - lia.
Defined.

(** ** Retraction when no edge is doubled *)

Lemma list_remove_once x l1 l2 :
  x ∉ l1 → list_remove x (l1 ++ x :: l2) = Ok (l1 ++ l2).
Proof.
  induction l1 as [|y l1 IH]; intros Hnin; simpl.
  - by rewrite bool_decide_eq_true_2.
  - apply not_elem_of_cons in Hnin as [Hne Hnin].
    rewrite bool_decide_eq_false_2 by done. by rewrite IH.
Qed.

(** The first loop, over predecessors that are pairwise distinct and each
    have an edge to [ad]: every one of them loses the first such edge, the
    other entries are untouched. *)
Lemma remove_links_spec ad preds (lo : gmap Z (list Z)) :
  NoDup preds →
  (∀ i, i ∈ preds → ∃ l1 l2, lo !! i = Some (l1 ++ ad :: l2) ∧ ad ∉ l1) →
  ∃ lo1, remove_links ad preds lo = Ok lo1
    ∧ (∀ i, i ∉ preds → lo1 !! i = lo !! i)
    ∧ (∀ i l1 l2, i ∈ preds → lo !! i = Some (l1 ++ ad :: l2) → ad ∉ l1 →
         lo1 !! i = Some (l1 ++ l2)).
Proof.
  revert lo. induction preds as [|p preds IH]; intros lo Hnd Hedges.
  - exists lo. split; [done|]. split; [done|].
    by intros i l1 l2 ?%not_elem_of_nil.
  - apply NoDup_cons in Hnd as [Hp Hnd].
    destruct (Hedges p) as (l1 & l2 & Hl & Hl1); [apply list_elem_of_here|].
    cbn [remove_links]. rewrite Hl, (list_remove_once _ _ _ Hl1). simpl.
    destruct (IH (<[p := l1 ++ l2]> lo) Hnd) as (lo1 & Hlo1 & Hout & Hin).
    { intros i Hi. rewrite lookup_insert_ne by (intros ->; done).
      apply Hedges. by apply list_elem_of_further. }
    exists lo1. split; [exact Hlo1|]. split.
    + intros i Hi. apply not_elem_of_cons in Hi as [Hne Hi].
      rewrite (Hout i Hi). by rewrite lookup_insert_ne.
    + intros i m1 m2 Hi Hm Hm1. apply elem_of_cons in Hi as [->|Hi].
      * rewrite (Hout p Hp), lookup_insert_eq.
        rewrite Hl in Hm. injection Hm as Hm. f_equal.
        clear -Hm Hl1 Hm1. revert m1 Hm Hm1.
        induction l1 as [|y l1 IHl]; intros [|z m1] Hm Hm1; simpl in *.
        -- by injection Hm as ->.
        -- injection Hm as -> _. exfalso. apply Hm1, list_elem_of_here.
        -- injection Hm as -> _. exfalso. apply Hl1, list_elem_of_here.
        -- injection Hm as -> Hm. f_equal.
           apply not_elem_of_cons in Hl1 as [_ Hl1].
           apply not_elem_of_cons in Hm1 as [_ Hm1]. by apply IHl.
      * rewrite (Hin i m1 m2 Hi); [done| |done].
        rewrite lookup_insert_ne; [done|]. by intros ->.
Qed.

(** The second loop, over pairwise distinct predecessors that all have an
    outgoing entry: the empty entries among them are dropped. *)
Lemma drop_empty_spec preds (lo : gmap Z (list Z)) :
  NoDup preds →
  (∀ i, i ∈ preds → is_Some (lo !! i)) →
  ∃ lo2, drop_empty preds lo = Ok lo2
    ∧ ∀ i, lo2 !! i =
        if decide (i ∈ preds)
        then match lo !! i with Some [] => None | o => o end
        else lo !! i.
Proof.
  revert lo. induction preds as [|p preds IH]; intros lo Hnd Hsome.
  - exists lo. split; [done|]. intros i.
    by rewrite decide_False by apply not_elem_of_nil.
  - apply NoDup_cons in Hnd as [Hp Hnd].
    destruct (Hsome p) as [l Hl]; [apply list_elem_of_here|].
    cbn [drop_empty]. rewrite Hl.
    set (lo' := match l with [] => delete p lo | _ :: _ => lo end).
    destruct (IH lo' Hnd) as (lo2 & Hlo2 & Hlook).
    { intros i Hi.
      assert (Hne : p ≠ i) by (by intros ->).
      unfold lo'. destruct l; [rewrite lookup_delete_ne by done|];
        apply Hsome; by apply list_elem_of_further. }
    exists lo2. split; [unfold lo' in Hlo2; by destruct l|].
    intros i. rewrite Hlook. destruct (decide (i = p)) as [->|Hne].
    + rewrite decide_False by done.
      rewrite (decide_True (P := p ∈ p :: preds)) by apply list_elem_of_here.
      rewrite Hl. unfold lo'. destruct l; [apply lookup_delete_eq|done].
    + assert (Hlo' : lo' !! i = lo !! i).
      { unfold lo'. destruct l; [by apply lookup_delete_ne|done]. }
      rewrite Hlo'. destruct (decide (i ∈ preds)) as [Hi|Hi].
      * by rewrite decide_True by (by apply list_elem_of_further).
      * rewrite decide_False; [done|]. by intros [?|?]%elem_of_cons.
Qed.

(** X15: retraction does what is asked of it on a graph in which every
    predecessor of [ad] has exactly one edge to [ad] and every edge to [ad]
    comes from a recorded predecessor: no exception, no edge to [ad] left in
    either map, no empty outgoing entry left behind by it, the other edges
    untouched. *)
Lemma retract_single_edges ad g preds :
  link_in g !! ad = Some preds →
  (∀ i, i ∈ preds →
     ∃ l1 l2, link_out g !! i = Some (l1 ++ ad :: l2)
              ∧ (ad ∉ l1) ∧ (ad ∉ l2)) →
  (∀ i l, link_out g !! i = Some l → ad ∈ l → i ∈ preds) →
  ∃ g', retract ad g = Ok g'
    ∧ nodes g' = nodes g
    ∧ link_in g' = delete ad (link_in g)
    ∧ (∀ i l, link_out g' !! i = Some l → ad ∉ l)
    ∧ (∀ i, i ∉ preds → link_out g' !! i = link_out g !! i)
    ∧ (∀ i l1 l2, i ∈ preds → link_out g !! i = Some (l1 ++ ad :: l2) →
         ad ∉ l1 →
         link_out g' !! i
         = match l1 ++ l2 with [] => None | l => Some l end).
Proof.
  intros Hin Hedges Hrec. unfold retract, retract_links. rewrite Hin.
  assert (Hnd : NoDup (elements preds)) by apply NoDup_elements.
  destruct (remove_links_spec ad (elements preds) (link_out g) Hnd)
    as (lo1 & Hlo1 & Hout1 & Hin1).
  { intros i Hi%elem_of_elements.
    destruct (Hedges i Hi) as (l1 & l2 & Hl & Hl1 & _). by exists l1, l2. }
  rewrite Hlo1. simpl.
  destruct (drop_empty_spec (elements preds) lo1 Hnd) as (lo2 & Hlo2 & Hlook).
  { intros i Hi. pose proof Hi as Hi'%elem_of_elements.
    destruct (Hedges i Hi') as (l1 & l2 & Hl & Hl1 & _).
    rewrite (Hin1 i l1 l2 Hi Hl Hl1). by eexists. }
  rewrite Hlo2. simpl. eexists. split; [done|]. simpl.
  split; [done|]. split; [done|]. split; [|split].
  - intros i l. rewrite Hlook.
    destruct (decide (i ∈ elements preds)) as [Hi|Hi].
    + pose proof Hi as Hi'%elem_of_elements.
      destruct (Hedges i Hi') as (l1 & l2 & Hl & Hl1 & Hl2).
      rewrite (Hin1 i l1 l2 Hi Hl Hl1).
      destruct (l1 ++ l2) eqn:Hl12; [discriminate|].
      intros [= <-]. rewrite <- Hl12.
      by intros [?|?]%elem_of_app.
    + rewrite (Hout1 i Hi). intros Hl Had. apply Hi, elem_of_elements.
      by apply (Hrec i l).
  - intros i Hi. rewrite Hlook, decide_False by (by rewrite elem_of_elements).
    apply Hout1. by rewrite elem_of_elements.
  - intros i l1 l2 Hi Hl Hl1.
    rewrite Hlook, decide_True by (by rewrite elem_of_elements).
    rewrite (Hin1 i l1 l2 (proj2 (elem_of_elements _ _) Hi) Hl Hl1).
    by destruct (l1 ++ l2).
Qed.

(** * Further properties *)

(** ** read_array: what the loops keep *)

Section read_array_invariant.
Context {B : Binary}.
Variables (f : unpack_str) (size_word s_end array_max_size : Z).
(** A property of the address, the count and the array that holds before the
    loops and survives every word appended at an address inside the
    section. *)
Variable inv : Z → Z → list Z → Prop.
Hypothesis inv_step : ∀ ad l array b,
  inv ad l array → ad ≤ s_end → Z.of_nat (length b) = size_word →
  inv (ad + size_word) (l + 1) (array ++ [struct_unpack f b]).

Lemma read_array_inner_inv fuel buf ad l array r :
  inv ad l array →
  read_array_inner fuel f size_word s_end array_max_size buf ad l array
    = Some r →
  match r with
  | InnerReturn a => ∃ ad' l', inv ad' l' a
  | InnerDone ad' l' a => inv ad' l' a
  end.
Proof.
  revert buf ad l array.
  induction fuel as [|fuel IH]; intros buf ad l array Hinv.
  - destruct buf; simpl; [by intros [= <-]|discriminate].
  - destruct buf as [|b buf]; [by intros [= <-]|].
    cbn [read_array_inner].
    destruct (bool_decide (ad > s_end)) eqn:Hgt; simpl.
    { intros [= <-]. by exists ad, l. }
    apply bool_decide_eq_false in Hgt.
    case_bool_decide as Hlen; simpl.
    { intros [= <-]. by exists ad, l. }
    assert (Hnext : inv (ad + size_word) (l + 1)
      (array ++ [struct_unpack f (take (Z.to_nat size_word) (b :: buf))])).
    { apply inv_step; [done|lia|exact Hlen]. }
    case_bool_decide.
    + intros [= <-]. by eexists _, _.
    + by apply IH.
Qed.

Lemma read_array_outer_inv fuel N ad l array a :
  inv ad l array →
  read_array_outer fuel f size_word s_end array_max_size N ad l array
    = Some a →
  ∃ ad' l', inv ad' l' a.
Proof.
  revert ad l array. induction fuel as [|fuel IH]; intros ad l array Hinv.
  - simpl. case_bool_decide; [discriminate|]. intros [= <-]. by exists ad, l.
  - cbn [read_array_outer]. case_bool_decide.
    2:{ intros [= <-]. by exists ad, l. }
    destruct (section_stream_read ad N) as [|b buf].
    { intros [= <-]. by exists ad, l. }
    destruct (read_array_inner _ _ _ _ _ _ _ _ _) as [r|] eqn:Hr;
      [|discriminate].
    apply (read_array_inner_inv _ _ _ _ _ _ Hinv) in Hr.
    destruct r as [a'|ad' l' a'].
    + by intros [= <-].
    + by apply IH.
Qed.
End read_array_invariant.

Lemma get_unpack_str_sizes mode size_word f :
  get_unpack_str mode size_word = Ok f →
  size_word = 1 ∨ size_word = 2 ∨ size_word = 4 ∨ size_word = 8.
Proof.
  unfold get_unpack_str.
  destruct (Z.eqb_spec size_word 1); [by left|].
  destruct (Z.eqb_spec size_word 2); [by right; left|].
  destruct (Z.eqb_spec size_word 4); [by right; right; left|].
  destruct (Z.eqb_spec size_word 8); [by right; right; right|].
  discriminate.
Qed.

Lemma get_unpack_str_Raise mode size_word e :
  get_unpack_str mode size_word = Raise e →
  e = UnboundLocalError
  ∧ size_word ≠ 1 ∧ size_word ≠ 2 ∧ size_word ≠ 4 ∧ size_word ≠ 8.
Proof.
  unfold get_unpack_str.
  destruct (Z.eqb_spec size_word 1); [discriminate|].
  destruct (Z.eqb_spec size_word 2); [discriminate|].
  destruct (Z.eqb_spec size_word 4); [discriminate|].
  destruct (Z.eqb_spec size_word 8); [discriminate|].
  by intros [= <-].
Qed.

Lemma byte_val_range b : 0 ≤ byte_val b < 256.
Proof.
  unfold byte_val. pose proof (Byte.to_N_bounded b) as Hb. lia.
Qed.

(** The integer spelled by [n] bytes, in either byte order, is below
    [256 ^ n]. *)
Lemma struct_unpack_range f b :
  0 ≤ struct_unpack f b < 256 ^ Z.of_nat (length b).
Proof.
  unfold struct_unpack. destruct f.1.
  - enough (Hgen : ∀ acc m, 0 ≤ acc < m →
      0 ≤ foldl (fun acc x => 256 * acc + byte_val x) acc b
        < m * 256 ^ Z.of_nat (length b)).
    { specialize (Hgen 0 1 ltac:(lia)). lia. }
    induction b as [|x b IH]; intros acc m Hacc; simpl foldl.
    + simpl. lia.
    + pose proof (byte_val_range x) as Hx.
      specialize (IH (256 * acc + byte_val x) (256 * m) ltac:(lia)).
      rewrite length_cons, Nat2Z.inj_succ, Z.pow_succ_r by lia. lia.
  - induction b as [|x b IH]; simpl foldr.
    + simpl. lia.
    + pose proof (byte_val_range x) as Hx.
      rewrite length_cons, Nat2Z.inj_succ, Z.pow_succ_r by lia. lia.
Qed.

(** X1: [read_array] always returns, by an array or by an exception, and an
    array it returns has at most [array_max_size] entries (none when
    [array_max_size] is zero or negative). *)
Theorem read_array_returns_bounded {B : Binary}
    (mode ad array_max_size size_word : Z) :
  ∃ r, read_array mode ad array_max_size size_word = Some r
       ∧ ∀ a, r = Ok a → Z.of_nat (length a) ≤ Z.max 0 array_max_size.
Proof.
  destruct (read_array_total mode ad array_max_size size_word) as (r & Hr & Hlen).
  exists r. split; [exact Hr|]. intros a Ha. specialize (Hlen a Ha). lia.
Qed.

(** X2: [read_array] raises exactly in two cases: [UnboundLocalError] when
    the word size is not 1, 2, 4 or 8, whatever the address, and [TypeError]
    when the word size is one of these and no section covers the address. *)
Theorem read_array_raises_iff {B : Binary}
    (mode ad array_max_size size_word : Z) (e : exc) :
  read_array mode ad array_max_size size_word = Some (Raise e)
  ↔ (e = UnboundLocalError
     ∧ size_word ≠ 1 ∧ size_word ≠ 2 ∧ size_word ≠ 4 ∧ size_word ≠ 8)
    ∨ (e = TypeError
       ∧ (size_word = 1 ∨ size_word = 2 ∨ size_word = 4 ∨ size_word = 8)
       ∧ get_section_meta ad = None).
Proof.
  unfold read_array.
  destruct (get_unpack_str mode size_word) as [f|e0] eqn:Hf.
  - pose proof (get_unpack_str_sizes _ _ _ Hf) as Hsz.
    destruct (get_section_meta ad) as [[[nm start] s_end]|].
    + destruct (read_array_outer _ _ _ _ _ _ _ _ _); split;
        try discriminate; intros [(_ & ?)|(_ & _ & ?)]; try discriminate; lia.
    + split.
      * intros [= <-]. by right.
      * intros [(_ & ?)|(-> & _)]; [lia|done].
  - pose proof (get_unpack_str_Raise _ _ _ Hf) as (-> & Hsz). split.
    + intros [= <-]. by left.
    + intros [(-> & _)|(_ & ? & _)]; [done|lia].
Qed.

(** X3: every word of the array [read_array] returns was read at an address
    inside the section of [ad]: the last one starts at or before the end of
    the section. *)
Theorem read_array_within_section {B : Binary}
    (mode ad array_max_size size_word : Z) (a : list Z) (nm : string)
    (s_start s_end : Z) :
  read_array mode ad array_max_size size_word = Some (Ok a) →
  get_section_meta ad = Some (nm, s_start, s_end) →
  a ≠ [] →
  ad + size_word * (Z.of_nat (length a) - 1) ≤ s_end.
Proof.
  unfold read_array. intros Hread Hmeta Hne.
  destruct (get_unpack_str mode size_word) as [f|]; [|discriminate].
  rewrite Hmeta in Hread.
  destruct (read_array_outer _ _ _ _ _ _ _ _ _) as [a'|] eqn:Hout;
    [|discriminate].
  injection Hread as ->.
  apply (read_array_outer_inv f size_word s_end array_max_size
           (fun ad' l' arr =>
              ad' = ad + size_word * Z.of_nat (length arr)
              ∧ (arr ≠ [] →
                 ad + size_word * (Z.of_nat (length arr) - 1) ≤ s_end)))
    in Hout as (ad' & l' & _ & Hlast).
  - by apply Hlast.
  - intros ad0 l0 arr b [Had Hprev] Hle _. rewrite length_app. simpl.
    split; [lia|]. intros _. lia.
  - split; [simpl; lia|done].
Qed.

(** X4: every entry of the array [read_array] returns is an unsigned integer
    of [size_word] bytes. *)
Theorem read_array_word_range {B : Binary}
    (mode ad array_max_size size_word : Z) (a : list Z) (w : Z) :
  read_array mode ad array_max_size size_word = Some (Ok a) →
  w ∈ a →
  0 ≤ w < 256 ^ size_word.
Proof.
  unfold read_array. intros Hread Hin.
  destruct (get_unpack_str mode size_word) as [f|]; [|discriminate].
  destruct (get_section_meta ad) as [[[nm start] s_end]|]; [|discriminate].
  destruct (read_array_outer _ _ _ _ _ _ _ _ _) as [a'|] eqn:Hout;
    [|discriminate].
  injection Hread as ->.
  apply (read_array_outer_inv f size_word s_end array_max_size
           (fun _ _ arr => Forall (fun w => 0 ≤ w < 256 ^ size_word) arr))
    in Hout as (_ & _ & Hall).
  - rewrite Forall_forall in Hall. by apply Hall.
  - intros _ _ arr b Harr _ Hlen. apply Forall_app. split; [done|].
    apply Forall_singleton. rewrite <- Hlen. apply struct_unpack_range.
  - constructor.
Qed.

Lemma words_of_S f sw buf n :
  words_of f sw buf (S n)
  = struct_unpack f (take sw buf) :: words_of f sw (drop sw buf) n.
Proof.
  unfold words_of. cbn [seq fmap list_fmap]. f_equal.
  rewrite <- fmap_S_seq, <- list_fmap_compose.
  apply list_fmap_ext. intros _ i _. unfold compose.
  rewrite drop_drop. by replace (S i * sw)%nat with (sw + i * sw)%nat by lia.
Qed.

(** On a buffer that holds the [m] words still wanted, all of them inside the
    section, the inner loop appends these [m] words and returns. *)
Lemma read_array_inner_full {B : Binary} f size_word s_end array_max_size m :
  1 ≤ size_word →
  ∀ fuel buf ad l array,
    (Z.to_nat size_word * S m ≤ length buf)%nat →
    (length buf ≤ fuel)%nat →
    l + Z.of_nat (S m) = array_max_size →
    ad + size_word * Z.of_nat m ≤ s_end →
    read_array_inner fuel f size_word s_end array_max_size buf ad l array
    = Some (InnerReturn
              (array ++ words_of f (Z.to_nat size_word) buf (S m))).
Proof.
  intros Hsw. induction m as [|m IH]; intros fuel buf ad l array Hlen Hfuel Hl Had.
  - destruct buf as [|b buf]; [simpl in Hlen; lia|].
    destruct fuel as [|fuel]; [simpl in Hfuel; lia|].
    cbn [read_array_inner].
    rewrite (bool_decide_eq_false_2 (ad > s_end)) by lia.
    rewrite bool_decide_eq_false_2 by (rewrite length_take_le; lia).
    simpl orb. cbv iota zeta.
    rewrite bool_decide_eq_true_2 by lia.
    by rewrite words_of_S.
  - destruct buf as [|b buf]; [simpl in Hlen; lia|].
    destruct fuel as [|fuel]; [simpl in Hfuel; lia|].
    cbn [read_array_inner].
    rewrite (bool_decide_eq_false_2 (ad > s_end)) by lia.
    rewrite bool_decide_eq_false_2 by (rewrite length_take_le; lia).
    simpl orb. cbv iota zeta.
    rewrite bool_decide_eq_false_2 by lia.
    rewrite IH.
    + by rewrite <- app_assoc, (words_of_S _ _ _ (S m)).
    + rewrite length_drop. lia.
    + rewrite length_drop. simpl in Hfuel.
      assert (1 ≤ Z.to_nat size_word)%nat by lia. simpl length. lia.
    + lia.
    + lia.
Qed.

(** When the stream read at [ad] gives all the [array_max_size] words asked
    for and the last of them starts inside the section, [read_array] returns
    the words of this one buffer. *)
Lemma read_array_full_buffer_words {B : Binary}
    (mode ad array_max_size size_word : Z) (f : unpack_str) (nm : string)
    (s_start s_end : Z) :
  get_unpack_str mode size_word = Ok f →
  get_section_meta ad = Some (nm, s_start, s_end) →
  0 < array_max_size →
  size_word * array_max_size
    ≤ Z.of_nat (length (section_stream_read ad (size_word * array_max_size))) →
  ad + size_word * (array_max_size - 1) ≤ s_end →
  read_array mode ad array_max_size size_word
  = Some (Ok (words_of f (Z.to_nat size_word)
                (section_stream_read ad (size_word * array_max_size))
                (Z.to_nat array_max_size))).
Proof.
  intros Hf Hmeta Hmax Hlen Had. unfold read_array. rewrite Hf, Hmeta.
  assert (Hsw : 1 ≤ size_word).
  { destruct (get_unpack_str_sizes _ _ _ Hf) as [?|[?|[?|?]]]; lia. }
  cbn [read_array_outer]. rewrite bool_decide_eq_true_2 by lia.
  destruct (section_stream_read ad (size_word * array_max_size))
    as [|b buf] eqn:Hbuf; [simpl in Hlen; nia|].
  destruct (Z.to_nat array_max_size) as [|m] eqn:Hm; [lia|].
  rewrite (read_array_inner_full f size_word s_end array_max_size m Hsw);
    [done| |done|lia|nia].
  nia.
Qed.

(** The byte order of the format is the one the mode asks for. *)
Lemma get_unpack_str_endian (mode size_word : Z) (f : unpack_str) :
  get_unpack_str mode size_word = Ok f →
  f.1 = negb (Z.land mode CS_MODE_BIG_ENDIAN =? 0).
Proof.
  unfold get_unpack_str. repeat case_match; intros [= <-]; reflexivity.
Qed.

(** Byte [j] of a little-endian value is its digit of weight [256 ^ j]. *)
Lemma le_value_digit (b : list byte) (j : nat) (x : byte) :
  b !! j = Some x → (le_value b / 256 ^ Z.of_nat j) mod 256 = byte_val x.
Proof.
  revert j. induction b as [|y b IH]; intros j Hj; [done|].
  pose proof (byte_val_range y) as Hy.
  change (le_value (y :: b)) with (byte_val y + 256 * le_value b).
  destruct j as [|j].
  - injection Hj as ->. change (256 ^ Z.of_nat 0) with 1.
    rewrite Z.div_1_r, (Z.mul_comm 256), Z.mod_add by lia.
    apply Z.mod_small. lia.
  - rewrite Nat2Z.inj_succ, Z.pow_succ_r by lia.
    rewrite <- Z.div_div by lia.
    rewrite (Z.mul_comm 256), Z.div_add by lia.
    rewrite (Z.div_small (byte_val y)) by lia.
    by apply IH.
Qed.

Lemma le_value_snoc (b : list byte) (x : byte) :
  le_value (b ++ [x])
  = le_value b + byte_val x * 256 ^ Z.of_nat (length b).
Proof.
  induction b as [|y b IH].
  - change (le_value ([] ++ [x])) with (byte_val x + 256 * 0).
    change (le_value []) with 0. simpl length. lia.
  - change (le_value ((y :: b) ++ [x]))
      with (byte_val y + 256 * le_value (b ++ [x])).
    change (le_value (y :: b)) with (byte_val y + 256 * le_value b).
    rewrite IH. cbn [length]. rewrite Nat2Z.inj_succ, Z.pow_succ_r by lia.
    lia.
Qed.

(** Unpacking big-endian is unpacking the reversed bytes little-endian. *)
Lemma be_value_reverse (b : list byte) (acc : Z) :
  foldl (fun a x => 256 * a + byte_val x) acc b
  = acc * 256 ^ Z.of_nat (length b) + le_value (reverse b).
Proof.
  revert acc. induction b as [|y b IH]; intros acc.
  - change (le_value (reverse [])) with 0. simpl. lia.
  - cbn [foldl]. rewrite IH, reverse_cons, le_value_snoc, length_reverse.
    cbn [length]. rewrite Nat2Z.inj_succ, Z.pow_succ_r by lia. lia.
Qed.

(** Byte [j] of the [n] bytes of a word is its digit of weight [256 ^ j]
    when the format is little-endian, of weight [256 ^ (n - 1 - j)] when it
    is big-endian. *)
Lemma struct_unpack_digit (f : unpack_str) (b : list byte) (j : nat)
    (x : byte) :
  b !! j = Some x →
  (struct_unpack f b
     / 256 ^ (if f.1 then Z.of_nat (length b) - 1 - Z.of_nat j
              else Z.of_nat j)) mod 256
  = byte_val x.
Proof.
  intros Hj. pose proof (lookup_lt_Some _ _ _ Hj) as Hlt.
  unfold struct_unpack. destruct f.1.
  - rewrite be_value_reverse, Z.mul_0_l, Z.add_0_l.
    replace (Z.of_nat (length b) - 1 - Z.of_nat j)
      with (Z.of_nat (length b - S j)) by lia.
    apply le_value_digit. rewrite reverse_lookup by lia.
    rewrite <- Hj. f_equal. lia.
  - by apply le_value_digit.
Qed.

(** X5: when the stream read at [ad] gives all the [array_max_size] words
    asked for and the last of them starts inside the section, [read_array]
    returns [array_max_size] words, one for each [size_word] bytes of this
    buffer in order, in the byte order of the mode: byte [j] of the bytes of
    a word is the digit of weight [256 ^ j] of the word when the mode is
    little-endian, and the digit of weight [256 ^ (size_word - 1 - j)] when
    the mode has [CS_MODE_BIG_ENDIAN]; the word has no other digit. *)
Theorem read_array_one_buffer {B : Binary}
    (mode ad array_max_size size_word : Z) (nm : string) (s_start s_end : Z) :
  size_word = 1 ∨ size_word = 2 ∨ size_word = 4 ∨ size_word = 8 →
  get_section_meta ad = Some (nm, s_start, s_end) →
  0 < array_max_size →
  size_word * array_max_size
    ≤ Z.of_nat (length (section_stream_read ad (size_word * array_max_size))) →
  ad + size_word * (array_max_size - 1) ≤ s_end →
  ∃ a,
    read_array mode ad array_max_size size_word = Some (Ok a)
    ∧ Z.of_nat (length a) = array_max_size
    ∧ ∀ (i : nat) (w : Z), a !! i = Some w →
        0 ≤ w < 256 ^ size_word
        ∧ ∀ j : nat, Z.of_nat j < size_word →
            ∃ b,
              section_stream_read ad (size_word * array_max_size)
                !! (i * Z.to_nat size_word + j)%nat = Some b
              ∧ (w / 256 ^ (if Z.land mode CS_MODE_BIG_ENDIAN =? 0
                            then Z.of_nat j
                            else size_word - 1 - Z.of_nat j)) mod 256
                = byte_val b.
Proof.
  intros Hsw Hmeta Hmax Hlen Had.
  destruct (get_unpack_str mode size_word) as [f|e] eqn:Hf.
  2: { apply get_unpack_str_Raise in Hf. lia. }
  pose proof (get_unpack_str_endian _ _ _ Hf) as Hend.
  rewrite (read_array_full_buffer_words mode ad array_max_size size_word f
             nm s_start s_end Hf Hmeta Hmax Hlen Had).
  set (buf := section_stream_read ad (size_word * array_max_size)) in *.
  set (n := Z.to_nat size_word).
  assert (Hn : Z.of_nat n = size_word) by lia.
  eexists. split; [reflexivity|]. split.
  { unfold words_of. rewrite length_fmap, length_seq. lia. }
  intros i w Hw. unfold words_of in Hw.
  rewrite list_lookup_fmap in Hw.
  destruct (seq 0 (Z.to_nat array_max_size) !! i) as [i'|] eqn:Hi;
    [|discriminate].
  apply lookup_seq in Hi as [-> Hi]. simpl in Hw. injection Hw as <-.
  assert (Hchunk : length (take n (drop (i * n) buf)) = n).
  { rewrite length_take, length_drop. nia. }
  split.
  { pose proof (struct_unpack_range f (take n (drop (i * n) buf))) as Hr.
    by rewrite Hchunk, Hn in Hr. }
  intros j Hj.
  destruct (lookup_lt_is_Some_2 buf (i * n + j)) as [b Hb]; [nia|].
  exists b. split; [exact Hb|].
  assert (Hcj : take n (drop (i * n) buf) !! j = Some b).
  { rewrite lookup_take_lt by lia. by rewrite lookup_drop. }
  pose proof (struct_unpack_digit f _ j b Hcj) as Hd.
  rewrite Hchunk, Hend, Hn in Hd.
  by destruct (Z.land mode CS_MODE_BIG_ENDIAN =? 0).
Qed.

Lemma read_array_one_buffer_witness :
  let B0 := Toy.binary 8192 Toy.prog_table false in
  ∃ a,
    read_array (B := B0) CS_MODE_BIG_ENDIAN 8192 4 2 = Some (Ok a)
    ∧ a = [256; 512; 256; 768]
    ∧ Z.of_nat (length a) = 4
    ∧ ∀ (i : nat) (w : Z), a !! i = Some w →
        0 ≤ w < 256 ^ 2
        ∧ ∀ j : nat, Z.of_nat j < 2 →
            ∃ b,
              section_stream_read (Binary := B0) 8192 (2 * 4)
                !! (i * Z.to_nat 2 + j)%nat = Some b
              ∧ (w / 256 ^ (if Z.land CS_MODE_BIG_ENDIAN CS_MODE_BIG_ENDIAN
                               =? 0
                            then Z.of_nat j
                            else 2 - 1 - Z.of_nat j)) mod 256
                = byte_val b.
Proof.
  intros B0.
  destruct (read_array_one_buffer (B := B0) CS_MODE_BIG_ENDIAN 8192 4 2
              ".text" 8192 8200
              ltac:(right; left; reflexivity) eq_refl eq_refl
              ltac:(vm_compute; discriminate) ltac:(vm_compute; discriminate))
    as (a & Hread & Hrest).
  exists a. split; [exact Hread|]. split; [|exact Hrest].
  vm_compute in Hread. by injection Hread as <-.
Defined.

(** The same table read in the two byte orders: the bytes 01 00 are the word
    1 in little-endian mode and the word 256 in big-endian mode. *)
Example read_array_byte_orders :
  let B0 := Toy.binary 8192 Toy.prog_table false in
  read_array (B := B0) 0 8192 4 2 = Some (Ok [1; 2; 1; 3])
  ∧ read_array (B := B0) CS_MODE_BIG_ENDIAN 8192 4 2
    = Some (Ok [256; 512; 256; 768]).
Proof.
  split; vm_compute; reflexivity.
Qed.

Lemma read_array_within_section_witness :
  8192 + 2 * (Z.of_nat (length [1; 2; 1; 3]) - 1) ≤ 8200.
Proof.
  apply (read_array_within_section (B := Toy.binary 8192 Toy.prog_table false)
           0 8192 7 2 [1; 2; 1; 3] ".text" 8192 8200).
  - reflexivity.
  - reflexivity.
  - discriminate.
Defined.

Lemma read_array_word_range_witness : 0 ≤ 3 < 256 ^ 2.
Proof.
  apply (read_array_word_range (B := Toy.binary 8192 Toy.prog_table false)
           0 8192 7 2 [1; 2; 1; 3] 3).
  - reflexivity.
  - by do 3 apply list_elem_of_further; apply list_elem_of_here.
Defined.

(** ** lazy_disasm: the cache *)

(** X6: [lazy_disasm] only adds to the cache: an entry is never removed nor
    replaced.  The symbol tables, the jump-table registry and the comments are
    left as they were, and the history of reads only grows. *)
Theorem lazy_disasm_cache_grows {B : Binary} {D : Decoder}
    (addr stay : Z) (d d' : Disassembler) (r : option Inst) :
  lazy_disasm addr stay d = (r, d') →
  (∀ k i, code d !! k = Some i → code d' !! k = Some i)
  ∧ symbols d' = symbols d
  ∧ reverse_symbols d' = reverse_symbols d
  ∧ jmptables d' = jmptables d
  ∧ inline_comments d' = inline_comments d
  ∧ previous_comments d' = previous_comments d
  ∧ ∃ evs, trace d' = trace d ++ evs.
Proof.
  unfold lazy_disasm.
  assert (Hsame : (∀ k i, code d !! k = Some i → code d !! k = Some i)
    ∧ symbols d = symbols d ∧ reverse_symbols d = reverse_symbols d
    ∧ jmptables d = jmptables d ∧ inline_comments d = inline_comments d
    ∧ previous_comments d = previous_comments d
    ∧ ∃ evs, trace d = trace d ++ evs).
  { repeat split; try done. exists []. by rewrite app_nil_r. }
  destruct (get_section_meta addr) as [[[nm start] e]|];
    [|by intros [= <- <-]].
  destruct (_ && _); [by intros [= <- <-]|].
  destruct (code d !! addr); [by intros [= <- <-]|].
  cbv zeta. destruct (md_disasm _ _) as [|first rest]; intros [= <- <-]; simpl.
  - repeat split; try done. by eexists.
  - repeat split; try done; [|by eexists].
    intros k i Hk. by apply fill_code_keeps.
Qed.

Lemma lazy_disasm_cache_grows_witness :
  let B0 := Toy.binary 4096 Toy.prog_nops true in
  let d1 := (lazy_disasm (B := B0) (D := Toy.decoder) 4096 (-1) empty_dis).2 in
  let d2 := (lazy_disasm (B := B0) (D := Toy.decoder) 4096 (-1) d1).2 in
  code d2 !! 4097 = Some (MkInst 4097 1 Toy.ID_NOP []).
Proof.
  intros B0 d1 d2.
  exact (proj1 (lazy_disasm_cache_grows (B := B0) (D := Toy.decoder)
                  4096 (-1) d1 d2 _ eq_refl)
           4097 (MkInst 4097 1 Toy.ID_NOP []) eq_refl).
Defined.

Lemma fill_code_keyed gen (c : gmap Z Inst) :
  (∀ k i, c !! k = Some i → i_address i = k) →
  ∀ k i, fill_code gen c !! k = Some i → i_address i = k.
Proof.
  intros Hc k i Hf. apply fill_code_new in Hf as [Hf|[_ Ha]]; [|done].
  by apply Hc.
Qed.

(** X7: if every cached instruction sits under its own address, this is
    still so after [lazy_disasm], and an instruction answered from the cache
    is the one of the address asked for. *)
Theorem lazy_disasm_cache_keyed {B : Binary} {D : Decoder}
    (addr stay : Z) (d d' : Disassembler) (r : option Inst) :
  cache_keyed d →
  lazy_disasm addr stay d = (r, d') →
  cache_keyed d'
  ∧ (is_Some (code d !! addr) → ∀ i, r = Some i → i_address i = addr).
Proof.
  intros Hkey. unfold lazy_disasm.
  destruct (get_section_meta addr) as [[[nm start] e]|].
  2:{ intros [= <- <-]. split; [done|]. by intros _ i. }
  destruct (_ && _). { intros [= <- <-]. split; [done|]. by intros _ i. }
  destruct (code d !! addr) as [i0|] eqn:Hc.
  { intros [= <- <-]. split; [done|]. intros _ i [= <-]. by apply Hkey. }
  cbv zeta. destruct (md_disasm _ _) as [|first rest]; intros [= <- <-].
  - split; [done|]. by intros [? [=]].
  - split; [|by intros [? [=]]].
    intros k i. simpl. by apply fill_code_keyed.
Qed.

Lemma lazy_disasm_cache_keyed_witness :
  let B0 := Toy.binary 4096 Toy.prog_nops true in
  cache_keyed (lazy_disasm (B := B0) (D := Toy.decoder) 4096 (-1) empty_dis).2.
Proof.
  intros B0.
  refine (proj1 (lazy_disasm_cache_keyed (B := B0) (D := Toy.decoder)
                   4096 (-1) empty_dis _ _ _ eq_refl)).
  intros k i Hk. simpl in Hk. by rewrite lookup_empty in Hk.
Defined.

(** X8: the overlap guard.  Once the loop over the produced instructions
    meets one whose address is already cached it stops: that instruction and
    all the ones after it are left out, whatever their addresses. *)
Theorem fill_code_stops (g1 g2 : list Inst) (i : Inst) (c : gmap Z Inst) :
  is_Some (c !! i_address i) →
  (∀ j, j ∈ g1 → i_address j ≠ i_address i) →
  fill_code (g1 ++ i :: g2) c = fill_code g1 c.
Proof.
  revert c. induction g1 as [|j g1 IH]; intros c [x Hx] Hne; simpl.
  - by rewrite Hx.
  - destruct (c !! i_address j); [done|].
    apply IH.
    + exists x. rewrite lookup_insert_ne; [done|].
      apply Hne, list_elem_of_here.
    + intros j' Hj'. apply Hne. by apply list_elem_of_further.
Qed.

Lemma fill_code_stops_witness :
  let nop a := MkInst a 1 Toy.ID_NOP [] in
  fill_code ([nop 1] ++ nop 2 :: [nop 3]) {[2 := nop 2]}
  = fill_code [nop 1] {[2 := nop 2]}.
Proof.
  intros nop. apply fill_code_stops.
  - by eexists.
  - intros j Hj%list_elem_of_singleton. by subst j.
Defined.

(** When no produced address is cached yet and no two produced instructions
    share an address, the pass caches them all. *)
Lemma fill_code_all (gen : list Inst) (c : gmap Z Inst) :
  NoDup (i_address <$> gen) →
  (∀ i, i ∈ gen → c !! i_address i = None) →
  ∀ i, i ∈ gen → fill_code gen c !! i_address i = Some i.
Proof.
  revert c. induction gen as [|j gen IH]; intros c Hnd Hfresh i Hi.
  - by apply not_elem_of_nil in Hi.
  - rewrite fmap_cons in Hnd. apply NoDup_cons in Hnd as [Hj Hnd].
    simpl. rewrite (Hfresh j) by apply list_elem_of_here.
    apply elem_of_cons in Hi as [->|Hi].
    + apply fill_code_keeps, lookup_insert_eq.
    + apply IH; [done| |done].
      intros i' Hi'. rewrite lookup_insert_ne.
      * apply Hfresh. by apply list_elem_of_further.
      * intros Heq. apply Hj. rewrite Heq. by apply list_elem_of_fmap_2.
Qed.

(** X9: memoization of a decoding pass.  After a miss at [addr] whose pass
    produced [first :: rest], with the addresses of [rest] new to the cache
    and pairwise distinct, asking for the address of any instruction of
    [rest] that a section covers gives that instruction back and leaves the
    object, history of reads included, as it is. *)
Theorem lazy_disasm_pass_memoized {B : Binary} {D : Decoder}
    (addr : Z) (d : Disassembler) (first : Inst) (rest : list Inst) (i : Inst) :
  is_Some (get_section_meta addr) →
  code d !! addr = None →
  md_disasm (section_stream_read addr 1024) addr = first :: rest →
  NoDup (i_address <$> rest) →
  (∀ j, j ∈ rest → code d !! i_address j = None) →
  i ∈ rest →
  is_Some (get_section_meta (i_address i)) →
  ∃ d1, lazy_disasm addr (-1) d = (Some first, d1)
        ∧ lazy_disasm (i_address i) (-1) d1 = (Some i, d1).
Proof.
  intros [[[nm start] e] Hm] Hc Hgen Hnd Hfresh Hi [[[nm' start'] e'] Hm'].
  eexists. split.
  - unfold lazy_disasm. rewrite Hm.
    rewrite bool_decide_eq_false_2 by (intros Hne; by apply Hne).
    simpl. by rewrite Hc, Hgen.
  - apply (lazy_disasm_cached _ _ _ nm' start' e' Hm'). simpl.
    by apply fill_code_all.
Qed.

Lemma lazy_disasm_pass_memoized_witness :
  let B0 := Toy.binary 4096 Toy.prog_nops true in
  ∃ d1, lazy_disasm (B := B0) (D := Toy.decoder) 4096 (-1) empty_dis
          = (Some (MkInst 4096 1 Toy.ID_NOP []), d1)
        ∧ lazy_disasm (B := B0) (D := Toy.decoder) 4098 (-1) d1
          = (Some (MkInst 4098 1 Toy.ID_RET []), d1).
Proof.
  intros B0.
  apply (lazy_disasm_pass_memoized (B := B0) (D := Toy.decoder) 4096 empty_dis
           (MkInst 4096 1 Toy.ID_NOP [])
           [MkInst 4097 1 Toy.ID_NOP []; MkInst 4098 1 Toy.ID_RET []]
           (MkInst 4098 1 Toy.ID_RET [])).
  - by eexists.
  - reflexivity.
  - reflexivity.
  - simpl. apply NoDup_cons. split.
    + intros Hin%list_elem_of_singleton. discriminate.
    + apply NoDup_singleton.
  - intros j _. reflexivity.
  - apply list_elem_of_further, list_elem_of_here.
  - by eexists.
Defined.


(** ** add_symbol and check_addr: outcomes *)

Lemma add_symbol_fresh_addr_witness :
  ∃ d', add_symbol 8192 "main"
          (set_symbols {["main"%string := 4096]} {[4096 := "main"%string]}
             empty_dis) = Ok ("main"%string, d')
        ∧ sym_inverse d'
        ∧ symbols d' !! "main"%string = Some 8192
        ∧ reverse_symbols d' !! 8192 = Some "main"%string
        ∧ ∀ last, symbols (set_symbols {["main"%string := 4096]}
                             {[4096 := "main"%string]} empty_dis)
                    !! "main"%string = Some last →
                  reverse_symbols d' !! last = None.
Proof.
  apply add_symbol_fresh_addr.
  - intros nm a. simpl. rewrite !lookup_singleton_Some. tauto.
  - reflexivity.
Defined.

(** X11: [add_symbol] raises, with [KeyError], exactly when the name is bound
    to an address that has no reverse entry.  Otherwise it returns the name,
    the name is bound to the address and the address to the name, every other
    name keeps its binding, and nothing but the two symbol tables changes. *)
Theorem add_symbol_outcome (addr : Z) (nm : string) (d : Disassembler) :
  (add_symbol addr nm d = Raise KeyError
   ↔ ∃ last, symbols d !! nm = Some last ∧ reverse_symbols d !! last = None)
  ∧ (∀ r, add_symbol addr nm d = Ok r →
       r.1 = nm
       ∧ symbols r.2 !! nm = Some addr
       ∧ reverse_symbols r.2 !! addr = Some nm
       ∧ (∀ n, n ≠ nm → symbols r.2 !! n = symbols d !! n)
       ∧ code r.2 = code d ∧ jmptables r.2 = jmptables d
       ∧ inline_comments r.2 = inline_comments d
       ∧ previous_comments r.2 = previous_comments d
       ∧ trace r.2 = trace d)
  ∧ (∀ e, add_symbol addr nm d = Raise e → e = KeyError).
Proof.
  unfold add_symbol.
  destruct (symbols d !! nm) as [last|] eqn:Hnm;
    [destruct (reverse_symbols d !! last) as [x|] eqn:Hlast|]; simpl.
  - split; [|split].
    + split; [discriminate|]. intros (l & [= <-] & Hl). congruence.
    + intros r [= <-]. simpl. rewrite !lookup_insert_eq.
      repeat split; try done. intros n Hn. by rewrite lookup_insert_ne.
    + discriminate.
  - split; [|split].
    + split; [|done]. intros _. by exists last.
    + discriminate.
    + by intros e [= <-].
  - split; [|split].
    + split; [discriminate|]. by intros (l & [=] & _).
    + intros r [= <-]. simpl. rewrite !lookup_insert_eq.
      repeat split; try done. intros n Hn. by rewrite lookup_insert_ne.
    + discriminate.
Qed.

(** X12: [check_addr] returns without an exception exactly when the binary
    reports the address as existing and either data is asked for or the
    address is executable; it raises no exception other than [ExcNotExec] and
    [ExcNotAddr] of the address checked. *)
Theorem check_addr_outcome {B : Binary} (print_data : bool) (addr : Z) :
  (check_addr print_data addr = Ok tt
   ↔ (binary_check_addr addr).1 = true
     ∧ (print_data = true ∨ (binary_check_addr addr).2 = true))
  ∧ (∀ e, check_addr print_data addr = Raise e →
       e = ExcNotExec addr ∨ e = ExcNotAddr addr).
Proof.
  unfold check_addr. destruct (binary_check_addr addr) as [ex isx].
  destruct print_data, isx, ex; simpl; split;
    try (split; [intros ?|intros [? [?|?]]]; try done; try discriminate;
         split; auto);
    intros e [= <-]; auto.
Qed.

(** ** add_jmptable: what else it does *)

Lemma add_symbol_Ok addr nm d r :
  add_symbol addr nm d = Ok r →
  ∃ rev1, r = (nm, set_symbols (<[nm := addr]> (symbols d))
                     (<[addr := nm]> rev1) d).
Proof.
  unfold add_symbol.
  destruct (symbols d !! nm) as [last|];
    [destruct (reverse_symbols d !! last)|]; simpl;
    try discriminate; intros [= <-]; by eexists.
Qed.

(** The steps of a successful [add_jmptable]. *)
Lemma add_jmptable_Ok {B : Binary}
    mode inst_addr table_addr entry_size nb_entries d d' :
  add_jmptable mode inst_addr table_addr entry_size nb_entries d = Some (Ok d') →
  let nm := ("jmptable_0x" +:+ py_hex table_addr)%string in
  ∃ rev1 tbl cases,
    read_array mode table_addr nb_entries entry_size = Some (Ok tbl)
    ∧ all_cases tbl = Ok cases
    ∧ d' = MkDis (code d) (<[nm := table_addr]> (symbols d))
             (<[table_addr := nm]> rev1)
             (<[inst_addr := MkJmptable inst_addr table_addr tbl nm]>
                (jmptables d))
             (<[inst_addr := ("switch statement " +:+ nm)%string]>
                (inline_comments d))
             (annotate_cases cases nm (previous_comments d))
             (trace d).
Proof.
  intros Hadd. cbv zeta. unfold add_jmptable in Hadd.
  set (nm := ("jmptable_0x" +:+ py_hex table_addr)%string) in *.
  destruct (add_symbol table_addr nm d) as [[nm' d1]|] eqn:Hsym;
    [|discriminate].
  apply add_symbol_Ok in Hsym as (rev1 & [= -> ->]).
  destruct (read_array _ _ _ _) as [[tbl|]|]; try discriminate.
  destruct (all_cases tbl) as [cases|] eqn:Hc; [|discriminate].
  injection Hadd as <-. by exists rev1, tbl, cases.
Qed.

(** X13: a successful [add_jmptable] binds the generated name
    [jmptable_0x<hex of table_addr>] to the table address, both ways, puts the
    comment [switch statement <name>] on the jump, and touches nothing else:
    the instruction cache and the history of reads are as before, the other
    entries of the registry and of the inline comments too, and so are the
    comments of the addresses that are not in the table. *)
Theorem add_jmptable_frame {B : Binary}
    (mode inst_addr table_addr entry_size nb_entries : Z)
    (d d' : Disassembler) :
  add_jmptable mode inst_addr table_addr entry_size nb_entries d = Some (Ok d') →
  let nm := ("jmptable_0x" +:+ py_hex table_addr)%string in
  symbols d' !! nm = Some table_addr
  ∧ reverse_symbols d' !! table_addr = Some nm
  ∧ inline_comments d' !! inst_addr = Some ("switch statement " +:+ nm)%string
  ∧ code d' = code d
  ∧ trace d' = trace d
  ∧ (∀ n, n ≠ nm → symbols d' !! n = symbols d !! n)
  ∧ (∀ a, a ≠ inst_addr →
       jmptables d' !! a = jmptables d !! a
       ∧ inline_comments d' !! a = inline_comments d !! a)
  ∧ (∀ a jt, jmptables d' !! inst_addr = Some jt → a ∉ table jt →
       previous_comments d' !! a = previous_comments d !! a).
Proof.
  intros Hadd. cbv zeta.
  apply add_jmptable_Ok in Hadd as (rev1 & tbl & cases & Hread & Hc & ->).
  set (nm := ("jmptable_0x" +:+ py_hex table_addr)%string) in *.
  cbn [symbols reverse_symbols inline_comments code trace jmptables
       previous_comments].
  rewrite !lookup_insert_eq.
  repeat split; try done.
  - intros n Hn. by rewrite lookup_insert_ne.
  - by rewrite lookup_insert_ne.
  - by rewrite lookup_insert_ne.
  - intros a jt [= <-] Ha. simpl in Ha. rewrite annotate_cases_lookup.
    destruct (all_cases_spec tbl) as (cases' & Hc' & Hlook).
    rewrite Hc in Hc'. injection Hc' as <-.
    by rewrite Hlook, decide_False.
Qed.

Lemma add_jmptable_frame_witness :
  let B0 := Toy.binary 8192 Toy.prog_table false in
  ∃ d', add_jmptable (B := B0) 0 4096 8192 2 4 empty_dis = Some (Ok d')
    ∧ symbols d' !! "jmptable_0x2000"%string = Some 8192
    ∧ reverse_symbols d' !! 8192 = Some "jmptable_0x2000"%string.
Proof.
  intros B0.
  destruct (add_jmptable (B := B0) 0 4096 8192 2 4 empty_dis)
    as [[d'|e]|] eqn:Hadd; [|vm_compute in Hadd; discriminate..].
  exists d'. split; [reflexivity|].
  destruct (add_jmptable_frame (B := B0) 0 4096 8192 2 4 empty_dis d' Hadd)
    as (Hs & Hr & _).
  split; [exact Hs|exact Hr].
Defined.

Lemma py_hex_inj a b : 0 ≤ a → 0 ≤ b → py_hex a = py_hex b → a = b.
Proof.
  assert (Hpos : ∀ p, HexString.Raw.to_N (HexString.Raw.of_pos p "") 0
                      = N.pos p).
  { intros p. by rewrite HexString.Raw.to_N_of_pos. }
  intros Ha Hb Heq.
  destruct a as [|p|p], b as [|q|q]; try lia; simpl in Heq.
  - apply (f_equal (fun s => HexString.Raw.to_N s 0)) in Heq.
    rewrite Hpos in Heq. discriminate.
  - apply (f_equal (fun s => HexString.Raw.to_N s 0)) in Heq.
    rewrite Hpos in Heq. discriminate.
  - apply (f_equal (fun s => HexString.Raw.to_N s 0)) in Heq.
    rewrite !Hpos in Heq. by injection Heq as ->.
Qed.

Lemma jmptable_name_inj a b :
  0 ≤ a → 0 ≤ b →
  ("jmptable_0x" +:+ py_hex a)%string = ("jmptable_0x" +:+ py_hex b)%string →
  a = b.
Proof.
  intros Ha Hb Heq. apply py_hex_inj; [done|done|].
  simpl in Heq. by simplify_eq.
Qed.

(** X14: the generated names do not clash: after two successful
    [add_jmptable] calls for tables at two different (non-negative)
    addresses, each name is bound to its own table address and the second
    address to its name; the first address is still bound to its name too,
    unless the second name was, from the start, a name of the first
    address. *)
Theorem add_jmptable_two_tables {B : Binary}
    (mode i1 t1 sz1 n1 i2 t2 sz2 n2 : Z) (d d1 d2 : Disassembler) :
  0 ≤ t1 → 0 ≤ t2 → t1 ≠ t2 →
  add_jmptable mode i1 t1 sz1 n1 d = Some (Ok d1) →
  add_jmptable mode i2 t2 sz2 n2 d1 = Some (Ok d2) →
  symbols d2 !! ("jmptable_0x" +:+ py_hex t1)%string = Some t1
  ∧ symbols d2 !! ("jmptable_0x" +:+ py_hex t2)%string = Some t2
  ∧ reverse_symbols d2 !! t2 = Some ("jmptable_0x" +:+ py_hex t2)%string
  ∧ (symbols d !! ("jmptable_0x" +:+ py_hex t2)%string ≠ Some t1 →
     reverse_symbols d2 !! t1 = Some ("jmptable_0x" +:+ py_hex t1)%string).
Proof.
  intros Ht1 Ht2 Hne Hadd1 Hadd2.
  assert (Hnm : ("jmptable_0x" +:+ py_hex t1)%string
                ≠ ("jmptable_0x" +:+ py_hex t2)%string).
  { intros Heq. by apply Hne, jmptable_name_inj. }
  pose proof Hadd1 as (rev1 & tbl1 & c1 & _ & _ & ->)%add_jmptable_Ok.
  unfold add_jmptable in Hadd2.
  destruct (add_symbol t2 _ _) as [[nm2 d1']|] eqn:Hsym; [|discriminate].
  destruct (read_array _ _ _ _) as [[tbl|]|]; try discriminate.
  destruct (all_cases tbl) as [cases|]; [|discriminate].
  injection Hadd2 as <-.
  cbn [symbols reverse_symbols set_previous_comments set_inline_comments
       set_jmptables].
  unfold add_symbol in Hsym.
  cbn [symbols reverse_symbols] in Hsym.
  rewrite lookup_insert_ne in Hsym by done.
  destruct (symbols d !! ("jmptable_0x" +:+ py_hex t2)%string) as [last|] eqn:Hold.
  - destruct (<[t1:=_]> rev1 !! last) eqn:Hlast; [|discriminate].
    cbn [res_bind] in Hsym. injection Hsym as <- <-.
    cbn [symbols reverse_symbols set_symbols].
    rewrite !lookup_insert_eq.
    rewrite (lookup_insert_ne _ _ ("jmptable_0x" +:+ py_hex t1)%string)
      by (intros Heq; by apply Hnm).
    rewrite lookup_insert_eq.
    split; [done|]. split; [done|]. split; [done|]. intros Hold'.
    rewrite lookup_insert_ne by (intros Heq; by apply Hne).
    rewrite lookup_delete_ne by congruence. apply lookup_insert_eq.
  - cbn [res_bind] in Hsym. injection Hsym as <- <-.
    cbn [symbols reverse_symbols set_symbols].
    rewrite !lookup_insert_eq.
    rewrite (lookup_insert_ne _ _ ("jmptable_0x" +:+ py_hex t1)%string)
      by (intros Heq; by apply Hnm).
    rewrite lookup_insert_eq.
    split; [done|]. split; [done|]. split; [done|]. intros _.
    rewrite lookup_insert_ne by (intros Heq; by apply Hne).
    apply lookup_insert_eq.
Qed.

Lemma add_jmptable_two_tables_witness :
  let B0 := Toy.binary 8192 Toy.prog_table false in
  ∃ d1 d2,
    add_jmptable (B := B0) 0 4096 8192 2 2 empty_dis = Some (Ok d1)
    ∧ add_jmptable (B := B0) 0 4100 8196 2 2 d1 = Some (Ok d2)
    ∧ symbols d2 !! "jmptable_0x2000"%string = Some 8192
    ∧ symbols d2 !! "jmptable_0x2004"%string = Some 8196.
Proof.
  intros B0.
  destruct (add_jmptable (B := B0) 0 4096 8192 2 2 empty_dis)
    as [[d1|e]|] eqn:H1; [|vm_compute in H1; discriminate..].
  destruct (add_jmptable (B := B0) 0 4100 8196 2 2 d1)
    as [[d2|e]|] eqn:H2;
    [|injection H1 as <-; vm_compute in H2; discriminate..].
  exists d1, d2. split; [reflexivity|]. split; [exact H2|].
  destruct (add_jmptable_two_tables (B := B0) 0 4096 8192 2 2 4100 8196 2 2
              empty_dis d1 d2) as (Ha & Hb & _); [lia|lia|lia|exact H1|exact H2|].
  split; [exact Ha|exact Hb].
Defined.

(** ** get_graph: what every run keeps *)

Lemma retract_single_edges_witness :
  let g := MkGraph 1 ∅ {[1 := [3; 2]]} {[2 := {[1]}]} ∅ ∅ in
  ∃ g', retract 2 g = Ok g'
    ∧ link_in g' !! 2 = None
    ∧ link_out g' !! 1 = Some [3].
Proof.
  intros g.
  destruct (retract_single_edges 2 g {[1]}) as (g' & Hr & _ & Hin & _ & _ & Hout).
  - reflexivity.
  - intros i ->%elem_of_singleton. exists [3], []. split; [reflexivity|].
    split.
    + intros Hin%list_elem_of_singleton. discriminate.
    + apply not_elem_of_nil.
  - intros i l Hl Hin. apply elem_of_singleton.
    destruct (decide (i = 1)) as [->|Hne]; [done|].
    simpl in Hl. by rewrite lookup_singleton_ne in Hl.
  - exists g'. split; [exact Hr|]. split.
    + rewrite Hin. apply lookup_delete_eq.
    + apply (Hout 1 [3] []); [by apply elem_of_singleton|reflexivity|].
      intros Hin'%list_elem_of_singleton. discriminate.
Defined.

Lemma add_node_links g inst pf :
  link_out (add_node g inst pf) = link_out g
  ∧ link_in (add_node g inst pf) = link_in g.
Proof. done. Qed.

(** Adding a node that was none, with its edges, keeps the two adjacency maps
    in step. *)
Lemma add_edges_keeps g inst pf nxts :
  nodes g !! i_address inst = None →
  out_in_nodes g → in_has_out g →
  out_in_nodes (add_edges g inst pf nxts)
  ∧ in_has_out (add_edges g inst pf nxts).
Proof.
  intros Hnone Hout Hin. split.
  - intros a. rewrite add_edges_link_out, add_edges_nodes.
    destruct (decide (a = i_address inst)) as [->|Hne].
    + rewrite !lookup_insert_eq. by eexists.
    + rewrite !lookup_insert_ne by done. apply Hout.
  - intros b preds a. rewrite add_edges_link_in, add_edges_link_out.
    assert (Hold : ∀ P, link_in g !! b = Some P → a ∈ P →
              ∃ l, <[i_address inst := nxts]> (link_out g) !! a = Some l
                   ∧ b ∈ l).
    { intros P HP Ha. destruct (Hin b P a HP Ha) as (l & Hl & Hb).
      exists l. split; [|done]. rewrite lookup_insert_ne; [done|].
      intros <-. assert (Hn : is_Some (nodes g !! i_address inst))
        by (apply Hout; by eexists).
      rewrite Hnone in Hn. by destruct Hn. }
    destruct (decide (b ∈ nxts)) as [Hb|Hb]; [|apply Hold].
    intros [= <-] [->%elem_of_singleton|Ha]%elem_of_union.
    + exists nxts. by rewrite lookup_insert_eq.
    + destruct (link_in g !! b) as [P|] eqn:HP; simpl in Ha.
      * by apply (Hold P).
      * by apply not_elem_of_empty in Ha.
Qed.

Lemma add_node_keeps g inst pf :
  out_in_nodes g → in_has_out g →
  out_in_nodes (add_node g inst pf) ∧ in_has_out (add_node g inst pf).
Proof.
  intros Hout Hin. split; [|done].
  intros a Ha. simpl. destruct (decide (a = i_address inst)) as [->|Hne].
  - rewrite lookup_insert_eq. by eexists.
  - rewrite lookup_insert_ne by done. by apply Hout.
Qed.

(** On a graph whose recorded predecessors all have their outgoing edge,
    retraction raises nothing and keeps the graph so. *)
Lemma retract_keeps ad g :
  out_in_nodes g → in_has_out g →
  ∃ g', retract ad g = Ok g' ∧ out_in_nodes g' ∧ in_has_out g'.
Proof.
  intros Hout Hin. unfold retract, retract_links.
  destruct (link_in g !! ad) as [preds|] eqn:Hpreds; [|by exists g].
  assert (Hnd : NoDup (elements preds)) by apply NoDup_elements.
  assert (Hsplit : ∀ i, i ∈ elements preds →
            ∃ l1 l2, link_out g !! i = Some (l1 ++ ad :: l2) ∧ ad ∉ l1).
  { intros i Hi%elem_of_elements.
    destruct (Hin ad preds i Hpreds Hi) as (l & Hl & Had).
    apply list_elem_of_split_l in Had as (l1 & l2 & -> & Hl1).
    by exists l1, l2. }
  destruct (remove_links_spec ad (elements preds) (link_out g) Hnd Hsplit)
    as (lo1 & Hlo1 & Hout1 & Hin1).
  rewrite Hlo1. simpl.
  destruct (drop_empty_spec (elements preds) lo1 Hnd) as (lo2 & Hlo2 & Hlook).
  { intros i Hi. destruct (Hsplit i Hi) as (l1 & l2 & Hl & Hl1).
    rewrite (Hin1 i l1 l2 Hi Hl Hl1). by eexists. }
  rewrite Hlo2. simpl. eexists. split; [done|].
  assert (Hsub : ∀ i l, lo2 !! i = Some l →
            ∃ l0, link_out g !! i = Some l0 ∧ ∀ b, b ≠ ad → b ∈ l0 → b ∈ l).
  { intros i l. rewrite Hlook.
    destruct (decide (i ∈ elements preds)) as [Hi|Hi].
    - destruct (Hsplit i Hi) as (l1 & l2 & Hl & Hl1).
      rewrite (Hin1 i l1 l2 Hi Hl Hl1).
      destruct (l1 ++ l2) eqn:Hl12; [discriminate|]. intros [= <-].
      exists (l1 ++ ad :: l2). split; [done|].
      intros b Hb. rewrite <- Hl12, !elem_of_app, elem_of_cons. tauto.
    - rewrite (Hout1 i Hi). intros Hl. by exists l. }
  split.
  - intros a [l Hl]. simpl in *. apply Hsub in Hl as (l0 & Hl0 & _).
    apply Hout. by eexists.
  - intros b P a. simpl. intros HP Ha.
    apply lookup_delete_Some in HP as [Hne HP].
    destruct (Hin b P a HP Ha) as (l0 & Hl0 & Hb).
    rewrite Hlook. destruct (decide (a ∈ elements preds)) as [Hi|Hi].
    + destruct (Hsplit a Hi) as (l1 & l2 & Hl & Hl1).
      rewrite (Hin1 a l1 l2 Hi Hl Hl1).
      rewrite Hl in Hl0. injection Hl0 as <-.
      assert (Hb' : b ∈ l1 ++ l2).
      { rewrite !elem_of_app, elem_of_cons in Hb. rewrite elem_of_app.
        destruct Hb as [?|[?|?]]; [by left|congruence|by right]. }
      destruct (l1 ++ l2) eqn:Hl12; [by apply not_elem_of_nil in Hb'|].
      by eexists.
    + rewrite (Hout1 a Hi). by exists l0.
Qed.

Section get_graph_invariant.
Context {U : ArchUtils} {B : Binary} {D : Decoder}.
Variable arch : Z.

(** One iteration keeps the adjacency maps in step, and the only exceptions
    it can raise are [IndexError], for an instruction without operands, and,
    on MIPS, [AttributeError]. *)
Lemma get_graph_body_keeps s ad stk :
  out_in_nodes (gph s) → in_has_out (gph s) →
  match get_graph_body arch s ad stk with
  | Ok s' => out_in_nodes (gph s') ∧ in_has_out (gph s')
  | Raise e => e = IndexError ∨ (e = AttributeError ∧ arch = CS_ARCH_MIPS)
  end.
Proof.
  intros Hout Hin. unfold get_graph_body.
  destruct (lazy_disasm ad (-1) (dis s)) as [[inst|] d1].
  2:{ destruct (retract_keeps ad (gph s) Hout Hin) as (g' & -> & ? & ?).
      by simpl. }
  destruct (exists_ (gph s) inst) eqn:Hex; [done|].
  assert (Hnone : nodes (gph s) !! i_address inst = None).
  { unfold exists_ in Hex. apply bool_decide_eq_false in Hex.
    by apply eq_None_not_Some. }
  destruct (mips_prefetch arch inst (prefetch s) d1) as [pf d2].
  destruct (is_ret inst); [by apply add_node_keeps|].
  destruct (is_uncond_jump inst).
  { destruct (last_operand inst) as [op|e] eqn:Hop; simpl.
    2:{ unfold last_operand in Hop. destruct (last _); [discriminate|].
        injection Hop as <-. by left. }
    destruct (op_type op =? CS_OP_IMM).
    { by apply (add_edges_keeps (add_uncond_jump ad (gph s))). }
    destruct (jmptables d2 !! i_address inst).
    - by apply (add_edges_keeps (add_uncond_jump ad (gph s))).
    - by apply (add_node_keeps (add_uncond_jump ad (gph s))). }
  destruct (is_cond_jump inst).
  { destruct (last_operand inst) as [op|e] eqn:Hop; simpl.
    2:{ unfold last_operand in Hop. destruct (last _); [discriminate|].
        injection Hop as <-. by left. }
    destruct (op_type op =? CS_OP_IMM).
    2:{ by apply (add_node_keeps (add_cond_jump ad (gph s))). }
    destruct (arch =? CS_ARCH_MIPS) eqn:Harch.
    - destruct pf as [p|]; simpl.
      + by apply (add_edges_keeps (add_cond_jump ad (gph s))).
      + right. split; [done|]. by apply Z.eqb_eq.
    - simpl. by apply (add_edges_keeps (add_cond_jump ad (gph s))). }
  by apply add_edges_keeps.
Qed.

Lemma get_graph_loop_keeps fuel s :
  out_in_nodes (gph s) → in_has_out (gph s) →
  match get_graph_loop arch fuel s with
  | Some (Ok s') => out_in_nodes (gph s') ∧ in_has_out (gph s')
  | Some (Raise e) =>
      e = IndexError ∨ (e = AttributeError ∧ arch = CS_ARCH_MIPS)
  | None => True
  end.
Proof.
  revert s. induction fuel as [|fuel IH]; intros s Hout Hin.
  - simpl. by destruct (stack s).
  - simpl. destruct (stack s) as [|ad stk]; [done|].
    pose proof (get_graph_body_keeps s ad stk Hout Hin) as Hbody.
    destruct (get_graph_body arch s ad stk) as [s'|e]; [|done].
    destruct Hbody as [Hout' Hin']. by apply IH.
Qed.

(** X16: whatever the program, [get_graph] never fails inside the retraction
    of edges ([KeyError], [ValueError]): the exceptions it can raise are
    [NotImplementedError] for an architecture without a module, [IndexError]
    for a jump without operands and, on MIPS only, [AttributeError].  In the
    graph it returns, every address with outgoing edges is a node and every
    recorded predecessor of an address has an outgoing edge to it. *)
Theorem get_graph_outcomes (fuel : nat) (entry : Z) (d : Disassembler) :
  match get_graph arch fuel entry d with
  | Some (Raise e) =>
      (e = NotImplementedError
       ∧ arch ≠ CS_ARCH_X86 ∧ arch ≠ CS_ARCH_ARM ∧ arch ≠ CS_ARCH_MIPS)
      ∨ e = IndexError
      ∨ (e = AttributeError ∧ arch = CS_ARCH_MIPS)
  | Some (Ok (Some g, _)) => out_in_nodes g ∧ in_has_out g
  | _ => True
  end.
Proof.
  unfold get_graph, load_arch_module.
  destruct (Z.eqb_spec arch CS_ARCH_X86) as [Hx|Hx];
    destruct (Z.eqb_spec arch CS_ARCH_ARM) as [Ha|Ha];
    destruct (Z.eqb_spec arch CS_ARCH_MIPS) as [Hm|Hm]; simpl;
    try (by left).
  all: pose proof (get_graph_loop_keeps fuel (get_graph_init entry d)
                     (out_in_nodes_init entry)) as Hloop.
  all: specialize (Hloop ltac:(intros b P a HP; simpl in HP;
                               by rewrite lookup_empty in HP)).
  all: destruct (get_graph_loop arch fuel (get_graph_init entry d))
         as [[s|e]|]; [|by right|done].
  all: unfold get_graph_result; by case_bool_decide.
Qed.

Lemma get_graph_body_adds_node s ad stk inst d1 s' :
  lazy_disasm ad (-1) (dis s) = (Some inst, d1) →
  get_graph_body arch s ad stk = Ok s' →
  is_Some (nodes (gph s') !! i_address inst).
Proof.
  intros Hdec. unfold get_graph_body. rewrite Hdec.
  destruct (exists_ (gph s) inst) eqn:Hex.
  { intros [= <-]. unfold exists_ in Hex. by apply bool_decide_eq_true in Hex. }
  destruct (mips_prefetch arch inst (prefetch s) d1) as [pf d2].
  assert (Hins : ∀ x (m : gmap Z (list Inst)),
            is_Some (<[i_address inst := x]> m !! i_address inst)).
  { intros x m. rewrite lookup_insert_eq. by eexists. }
  destruct (is_ret inst); [intros [= <-]; apply Hins|].
  destruct (is_uncond_jump inst).
  { destruct (last_operand inst) as [op|]; [|discriminate]. simpl.
    destruct (op_type op =? CS_OP_IMM); [intros [= <-]; apply Hins|].
    destruct (jmptables d2 !! i_address inst); intros [= <-]; apply Hins. }
  destruct (is_cond_jump inst); [|intros [= <-]; apply Hins].
  destruct (last_operand inst) as [op|]; [|discriminate]. simpl.
  destruct (op_type op =? CS_OP_IMM); [|intros [= <-]; apply Hins].
  destruct (if arch =? CS_ARCH_MIPS then _ else _); [|discriminate].
  simpl. intros [= <-]. apply Hins.
Qed.

(** X17: when [get_graph] returns and the entry address decodes, the result
    is a graph, not [None], and the instruction at the entry is one of its
    nodes. *)
Theorem get_graph_entry_node (fuel : nat) (entry : Z) (d d1 d' : Disassembler)
    (inst : Inst) (r : option Graph) :
  get_graph arch fuel entry d = Some (Ok (r, d')) →
  lazy_disasm entry (-1) d = (Some inst, d1) →
  ∃ g, r = Some g ∧ is_Some (nodes g !! i_address inst).
Proof.
  unfold get_graph. intros Hget Hdec.
  destruct (load_arch_module arch) as [_|]; [|discriminate].
  destruct (get_graph_loop arch fuel (get_graph_init entry d))
    as [[s|]|] eqn:Hloop; try discriminate.
  injection Hget as Hres.
  destruct fuel as [|fuel]; [discriminate|].
  rewrite (get_graph_loop_cons arch fuel _ entry []) in Hloop by done.
  destruct (get_graph_body arch (get_graph_init entry d) entry [])
    as [s1|] eqn:Hbody; [|discriminate].
  apply (get_graph_body_adds_node _ _ _ inst d1) in Hbody; [|done].
  apply get_graph_loop_nodes_mono in Hloop.
  assert (Hin : is_Some (nodes (gph s) !! i_address inst)).
  { apply elem_of_dom, Hloop, elem_of_dom, Hbody. }
  unfold get_graph_result in Hres. case_bool_decide as Hsz.
  - apply map_size_empty_iff in Hsz. rewrite Hsz, lookup_empty in Hin.
    by destruct Hin.
  - injection Hres as <- <-. by exists (gph s).
Qed.
End get_graph_invariant.

Lemma get_graph_entry_node_witness :
  let B0 := Toy.binary 4096 Toy.prog_nops true in
  ∃ g, (∃ d', get_graph (U := Toy.utils) (B := B0) (D := Toy.decoder)
                CS_ARCH_X86 10 4096 empty_dis = Some (Ok (Some g, d')))
       ∧ is_Some (nodes g !! 4096).
Proof.
  intros B0.
  destruct (get_graph (U := Toy.utils) (B := B0) (D := Toy.decoder)
              CS_ARCH_X86 10 4096 empty_dis) as [[[r d']|e]|] eqn:Hget;
    [|vm_compute in Hget; discriminate..].
  destruct (get_graph_entry_node (U := Toy.utils) (B := B0) (D := Toy.decoder)
              CS_ARCH_X86 10 4096 empty_dis
              (lazy_disasm (B := B0) (D := Toy.decoder) 4096 (-1) empty_dis).2
              d' (MkInst 4096 1 Toy.ID_NOP []) r Hget eq_refl)
    as (g & -> & Hnode).
  exists g. split; [by exists d'|exact Hnode].
Defined.

(** ** get_addr_from_string *)

Section get_addr_from_string_facts.
Variable py_int : string → Z → res Z.
Variable section_names : gmap string Z.

(** What one name resolves to: the symbol of that name, else the section of
    that name, an address of -1 counting as none. *)
Lemma search_addr_outcome opt_addr search d r :
  search_addr py_int section_names opt_addr search d = Some r →
  match r with
  | AddrOk a => a ≠ -1
  | ExcSymNotFound _ => False
  | AddrRaise e =>
      ∃ s, s ∈ search ∧ String.prefix "0x" s = true
           ∧ match opt_addr with
             | Some o => py_int o 16 = Raise e
             | None => e = TypeError
             end
  end.
Proof.
  induction search as [|s search IH]; [discriminate|]. simpl.
  assert (Hrec : search_addr py_int section_names opt_addr search d = Some r →
    match r with
    | AddrOk a => a ≠ -1
    | ExcSymNotFound _ => False
    | AddrRaise e =>
        ∃ s0, s0 ∈ s :: search ∧ String.prefix "0x" s0 = true
              ∧ match opt_addr with
                | Some o => py_int o 16 = Raise e
                | None => e = TypeError
                end
    end).
  { intros Hr. apply IH in Hr. destruct r; try done.
    destruct Hr as (s0 & ? & ? & ?). exists s0.
    split; [by apply list_elem_of_further|done]. }
  assert (Hhit : ∀ a, (if negb (a =? -1) then Some (AddrOk a)
                       else search_addr py_int section_names opt_addr search d)
                      = Some r →
    match r with
    | AddrOk a => a ≠ -1
    | ExcSymNotFound _ => False
    | AddrRaise e =>
        ∃ s0, s0 ∈ s :: search ∧ String.prefix "0x" s0 = true
              ∧ match opt_addr with
                | Some o => py_int o 16 = Raise e
                | None => e = TypeError
                end
    end).
  { intros a. destruct (Z.eqb_spec a (-1)); simpl; [exact Hrec|].
    by intros [= <-]. }
  destruct (String.prefix "0x" s) eqn:Hpre.
  - destruct opt_addr as [o|].
    + destruct (py_int o 16) as [a|e] eqn:Hint; [apply Hhit|].
      intros [= <-]. exists s. split; [apply list_elem_of_here|done].
    + intros [= <-]. exists s. split; [apply list_elem_of_here|done].
  - destruct (default (-1) (symbols d !! s) =? -1); apply Hhit.
Qed.

(** X18: [get_addr_from_string] never answers -1.  When it fails with
    [ExcSymNotFound] the name reported is the argument, or [main] when there
    is none; any other exception is the one [int] raised on an argument that
    starts with [0x]. *)
Theorem get_addr_from_string_outcome (opt_addr : option string) (raw : bool)
    (d : Disassembler) :
  match get_addr_from_string py_int section_names opt_addr raw d with
  | AddrOk a => a ≠ -1
  | ExcSymNotFound s => s = default "main"%string opt_addr
  | AddrRaise e =>
      ∃ o, opt_addr = Some o ∧ String.prefix "0x" o = true
           ∧ py_int o 16 = Raise e
  end.
Proof.
  unfold get_addr_from_string. destruct opt_addr as [o|].
  - destruct (search_addr _ _ _ _ _) as [r|] eqn:Hs; [|done].
    apply search_addr_outcome in Hs. destruct r as [a| |e]; try done.
    destruct Hs as (s & Hin%list_elem_of_singleton & Hpre & Hint).
    subst s. by exists o.
  - destruct raw; [done|].
    destruct (search_addr _ _ _ _ _) as [r|] eqn:Hs; [|done].
    apply search_addr_outcome in Hs. destruct r as [a| |e]; try done.
    destruct Hs as (s & Hin & Hpre & _).
    apply elem_of_cons in Hin as [->|Hin]; [discriminate|].
    apply list_elem_of_singleton in Hin as ->. discriminate.
Qed.

(** The address a name stands for: its symbol, else its section, -1 counting
    as none. *)
Lemma search_addr_name (nm : string) opt_addr rest d :
  String.prefix "0x" nm = false →
  search_addr py_int section_names opt_addr (nm :: rest) d =
    let a := default (-1) (symbols d !! nm) in
    let a' := if a =? -1 then default (-1) (section_names !! nm) else a in
    if a' =? -1 then search_addr py_int section_names opt_addr rest d
    else Some (AddrOk a').
Proof.
  intros Hpre. simpl. rewrite Hpre.
  destruct (default (-1) (symbols d !! nm) =? -1); simpl;
    by destruct (_ =? -1).
Qed.

(** X19: a name that does not start with [0x] resolves to the address of the
    symbol of that name, and to the start of the section of that name only
    when there is no such symbol or its address is -1; an address of -1 is
    never a resolution, and without one the call fails with
    [ExcSymNotFound]. *)
Theorem get_addr_from_string_name (nm : string) (raw : bool)
    (d : Disassembler) (a : Z) :
  String.prefix "0x" nm = false →
  (get_addr_from_string py_int section_names (Some nm) raw d = AddrOk a
   ↔ a ≠ -1
     ∧ (symbols d !! nm = Some a
        ∨ ((symbols d !! nm = None ∨ symbols d !! nm = Some (-1))
           ∧ section_names !! nm = Some a)))
  ∧ (get_addr_from_string py_int section_names (Some nm) raw d
       = ExcSymNotFound nm
     ↔ (symbols d !! nm = None ∨ symbols d !! nm = Some (-1))
       ∧ (section_names !! nm = None ∨ section_names !! nm = Some (-1))).
Proof.
  intros Hpre. unfold get_addr_from_string.
  rewrite (search_addr_name nm _ [] d Hpre). cbv zeta. simpl search_addr.
  destruct (symbols d !! nm) as [x|] eqn:Hsym; simpl;
    [destruct (Z.eqb_spec x (-1)) as [->|Hx]|]; simpl.
  - destruct (section_names !! nm) as [y|] eqn:Hsec; simpl;
      [destruct (Z.eqb_spec y (-1)) as [->|Hy]|]; simpl.
    + split; split; try done; intuition congruence.
    + split; split; try done; intuition congruence.
    + split; split; try done; intuition congruence.
  - rewrite (proj2 (Z.eqb_neq x (-1)) Hx). split; split; intuition congruence.
  - destruct (section_names !! nm) as [y|] eqn:Hsec; simpl;
      [destruct (Z.eqb_spec y (-1)) as [->|Hy]|]; simpl.
    + split; split; try done; intuition congruence.
    + split; split; try done; intuition congruence.
    + split; split; try done; intuition congruence.
Qed.

(** X20: without an argument (and not raw) the entry point is what [main]
    resolves to, else what [_main] resolves to; the failure names [main]. *)
Theorem get_addr_from_string_default (d : Disassembler) :
  get_addr_from_string py_int section_names None false d =
    match get_addr_from_string py_int section_names (Some "main"%string) false d with
    | ExcSymNotFound _ =>
        match get_addr_from_string py_int section_names
                (Some "_main"%string) false d with
        | ExcSymNotFound _ => ExcSymNotFound "main"
        | r => r
        end
    | r => r
    end.
Proof.
  unfold get_addr_from_string.
  rewrite !search_addr_name by reflexivity. cbv zeta.
  destruct (_ =? -1); [|done].
  destruct (_ =? -1); done.
Qed.
End get_addr_from_string_facts.

Lemma get_addr_from_string_name_witness :
  get_addr_from_string (fun _ _ => Raise ValueError) {[".text"%string := 8192]}
    (Some ".text"%string) false
    (set_symbols {[".text"%string := -1]} ∅ empty_dis) = AddrOk 8192.
Proof.
  apply (get_addr_from_string_name (fun _ _ => Raise ValueError)
           {[".text"%string := 8192]} ".text" false
           (set_symbols {[".text"%string := -1]} ∅ empty_dis) 8192 eq_refl).
  split; [lia|]. right. split; [by right|reflexivity].
Defined.

(** ** print_calls *)

Section print_calls_facts.
Context {U : ArchUtils} {B : Binary} {D : Decoder}.
Variable arch : Z.

(** A property of instructions that holds of the cache and of all that the
    decoder produces holds of what [lazy_disasm] answers and of the cache
    afterwards. *)
Lemma lazy_disasm_all (P : Inst → Prop) addr stay d r d' :
  (∀ a i, i ∈ md_disasm (section_stream_read a 1024) a → P i) →
  cache_all P d →
  lazy_disasm addr stay d = (r, d') →
  cache_all P d' ∧ ∀ i, r = Some i → P i.
Proof.
  intros Hdec Hc. unfold lazy_disasm.
  destruct (get_section_meta addr) as [[[nm start] e]|].
  2:{ intros [= <- <-]. by split. }
  destruct (_ && _). { intros [= <- <-]. by split. }
  destruct (code d !! addr) as [i|] eqn:Hi.
  { intros [= <- <-]. split; [done|]. intros i' [= <-]. by apply (Hc addr). }
  cbv zeta. pose proof (Hdec addr) as Hgen.
  destruct (md_disasm (section_stream_read addr 1024) addr) as [|first rest].
  { intros [= <- <-]. by split. }
  intros [= <- <-]. split.
  - intros k i Hk. simpl in Hk. apply fill_code_new in Hk as [Hk|[Hin _]].
    + by apply (Hc k).
    + apply Hgen. by apply list_elem_of_further.
  - intros i [= <-]. apply Hgen, list_elem_of_here.
Qed.

Lemma print_calls_loop_terminates fuel s_start s_end ad d out :
  (∀ a i, i ∈ md_disasm (section_stream_read a 1024) a → 1 ≤ i_size i) →
  cache_all (fun i => 1 ≤ i_size i) d →
  (Z.to_nat (s_end - ad) ≤ fuel)%nat →
  is_Some (print_calls_loop fuel s_start s_end ad d out).
Proof.
  intros Hdec. revert ad d out.
  induction fuel as [|fuel IH]; intros ad d out Hc Hfuel.
  - simpl. rewrite bool_decide_eq_false_2 by lia. by eexists.
  - cbn [print_calls_loop]. case_bool_decide; [|by eexists].
    destruct (lazy_disasm ad s_start d) as [r d1] eqn:Hl.
    apply (lazy_disasm_all _ _ _ _ _ _ Hdec Hc) in Hl as [Hc1 Hr].
    destruct r as [i|].
    + specialize (Hr i eq_refl). apply IH; [done|lia].
    + apply IH; [done|lia].
Qed.

(** X21: when no instruction, cached or produced by the decoder, has a size
    below one, [print_calls] comes to an end within as many iterations as the
    section has bytes. *)
Theorem print_calls_terminates (fuel : nat) (entry : Z) (d : Disassembler) :
  (∀ a i, i ∈ md_disasm (section_stream_read a 1024) a → 1 ≤ i_size i) →
  cache_all (fun i => 1 ≤ i_size i) d →
  (∀ nm s_start s_end, get_section_meta entry = Some (nm, s_start, s_end) →
     (Z.to_nat (s_end - s_start) ≤ fuel)%nat) →
  ∃ r, print_calls arch fuel entry d = Some r.
Proof.
  intros Hdec Hc Hfuel. unfold print_calls.
  destruct (load_arch_module arch) as [_|]; [|by eexists].
  destruct (get_section_meta entry) as [[[nm s_start] s_end]|]; [|by eexists].
  destruct (print_calls_loop_terminates fuel s_start s_end s_start d
              [OutSection nm s_start s_end] Hdec Hc) as [r Hr].
  { by apply (Hfuel nm). }
  rewrite Hr. by eexists.
Qed.

Lemma print_calls_loop_output fuel s_start s_end ad d pre calls out d' :
  Forall (fun i => is_call i = true) calls →
  print_calls_loop fuel s_start s_end ad d (pre ++ (OutInst <$> calls))
    = Some (out, d') →
  (∃ calls', out = pre ++ (OutInst <$> calls')
             ∧ Forall (fun i => is_call i = true) calls')
  ∧ ∀ k i, code d !! k = Some i → code d' !! k = Some i.
Proof.
  revert ad d calls. induction fuel as [|fuel IH]; intros ad d calls Hcalls.
  - simpl. case_bool_decide; [discriminate|]. intros [= <- <-].
    split; [by exists calls|done].
  - cbn [print_calls_loop]. case_bool_decide.
    2:{ intros [= <- <-]. split; [by exists calls|done]. }
    destruct (lazy_disasm ad s_start d) as [r d1] eqn:Hl.
    assert (Hgrow : ∀ k i, code d !! k = Some i → code d1 !! k = Some i).
    { intros k i Hk. revert Hl. unfold lazy_disasm.
      destruct (get_section_meta ad) as [[[nm start] e]|];
        [|by intros [= <- <-]].
      destruct (_ && _); [by intros [= <- <-]|].
      destruct (code d !! ad); [by intros [= <- <-]|].
      cbv zeta. destruct (md_disasm _ _); intros [= <- <-]; [done|].
      simpl. by apply fill_code_keeps. }
    destruct r as [i|].
    + destruct (is_call i) eqn:Hcall.
      * rewrite <- app_assoc.
        replace ((OutInst <$> calls) ++ [OutInst i])
          with (OutInst <$> (calls ++ [i])) by (by rewrite fmap_app).
        intros Hloop. apply IH in Hloop as [Hout Hc].
        -- split; [done|]. intros k j Hk. by apply Hc, Hgrow.
        -- apply Forall_app. split; [done|]. by apply Forall_singleton.
      * intros Hloop. apply IH in Hloop as [Hout Hc]; [|done].
        split; [done|]. intros k j Hk. by apply Hc, Hgrow.
    + intros Hloop. apply IH in Hloop as [Hout Hc]; [|done].
      split; [done|]. intros k j Hk. by apply Hc, Hgrow.
Qed.

(** X22: what [print_calls] prints is the header of the section of the entry
    address followed by instructions that are all calls; it raises only for
    an architecture without a module ([NotImplementedError]) or an entry
    address outside every section ([TypeError]); and it only adds to the
    instruction cache. *)
Theorem print_calls_output (fuel : nat) (entry : Z) (d : Disassembler) :
  match print_calls arch fuel entry d with
  | Some (Ok (out, d')) =>
      (∃ nm s_start s_end calls,
         get_section_meta entry = Some (nm, s_start, s_end)
         ∧ out = OutSection nm s_start s_end :: (OutInst <$> calls)
         ∧ Forall (fun i => is_call i = true) calls)
      ∧ ∀ k i, code d !! k = Some i → code d' !! k = Some i
  | Some (Raise e) =>
      (e = NotImplementedError ∧ load_arch_module arch = Raise e)
      ∨ (e = TypeError ∧ get_section_meta entry = None)
  | None => True
  end.
Proof.
  unfold print_calls.
  destruct (load_arch_module arch) as [u|e] eqn:Harch.
  2:{ left. split; [|done]. unfold load_arch_module in Harch.
      destruct (_ || _); [discriminate|]. by injection Harch as <-. }
  destruct (get_section_meta entry) as [[[nm s_start] s_end]|]; [|by right].
  destruct (print_calls_loop _ _ _ _ _ _) as [[out d']|] eqn:Hloop; [|done].
  apply (print_calls_loop_output _ _ _ _ _ [OutSection nm s_start s_end] [])
    in Hloop as [(calls & -> & Hcalls) Hgrow]; [|constructor].
  split; [|done]. by exists nm, s_start, s_end, calls.
Qed.
End print_calls_facts.

Lemma Toy_disasm_sizes_le i n :
  ∀ buf a, (length buf ≤ n)%nat → i ∈ Toy.disasm buf a → 1 ≤ i_size i.
Proof.
  induction n as [|n IH]; intros buf a Hlen.
  { destruct buf; [by intros ?%not_elem_of_nil|simpl in Hlen; lia]. }
  destruct buf as [|b buf]; [by intros ?%not_elem_of_nil|].
  simpl in Hlen. simpl. destruct (byte_val b =? 144).
  { intros [->|Hin]%elem_of_cons; [simpl; lia|].
    apply IH in Hin; [done|lia]. }
  destruct (byte_val b =? 195).
  { intros [->|Hin]%elem_of_cons; [simpl; lia|].
    apply IH in Hin; [done|lia]. }
  destruct buf as [|r buf]; [by intros ?%not_elem_of_nil|]. simpl in Hlen.
  destruct (byte_val b =? 235).
  { intros [->|Hin]%elem_of_cons; [simpl; lia|].
    apply IH in Hin; [done|lia]. }
  destruct (byte_val b =? 116).
  { intros [->|Hin]%elem_of_cons; [simpl; lia|].
    apply IH in Hin; [done|lia]. }
  destruct (_ && _); [|by intros ?%not_elem_of_nil].
  intros [->|Hin]%elem_of_cons; [simpl; lia|].
  apply IH in Hin; [done|lia].
Qed.

Lemma Toy_disasm_sizes buf a i : i ∈ Toy.disasm buf a → 1 ≤ i_size i.
Proof. by apply (Toy_disasm_sizes_le i (length buf)). Qed.

Lemma print_calls_terminates_witness :
  ∃ r, print_calls (U := Toy.utils) (B := Toy.binary 4096 Toy.prog_nops true)
         (D := Toy.decoder) CS_ARCH_X86 2 4096 empty_dis = Some r.
Proof.
  apply print_calls_terminates.
  - intros a i. apply Toy_disasm_sizes.
  - intros k i Hk. simpl in Hk. by rewrite lookup_empty in Hk.
  - intros nm s_start s_end [= <- <- <-]. lia.
Defined.

(** ** Calling twice *)

(** X23: registering a symbol a second time, under the same name and at the
    same address, never fails and leaves the object exactly as the first
    registration left it. *)
Theorem add_symbol_twice (addr : Z) (nm : string) (d d1 : Disassembler) :
  add_symbol addr nm d = Ok (nm, d1) →
  add_symbol addr nm d1 = Ok (nm, d1).
Proof.
  intros Hadd. apply add_symbol_Ok in Hadd as (rev1 & [= ->]).
  unfold add_symbol. cbn [symbols reverse_symbols set_symbols].
  rewrite lookup_insert_eq, lookup_insert_eq. simpl.
  unfold set_symbols. cbn [code symbols reverse_symbols jmptables
    inline_comments previous_comments trace].
  by rewrite insert_insert_eq, insert_delete_eq, insert_insert_eq.
Qed.

Lemma add_symbol_twice_witness :
  ∃ d1, add_symbol 4096 "main" empty_dis = Ok ("main"%string, d1)
        ∧ add_symbol 4096 "main" d1 = Ok ("main"%string, d1).
Proof.
  eexists. split; [reflexivity|].
  apply (add_symbol_twice 4096 "main" empty_dis). reflexivity.
Defined.

Lemma annotate_cases_twice (cases : gmap Z (list nat)) nm pc :
  annotate_cases cases nm (annotate_cases cases nm pc)
  = annotate_cases cases nm pc.
Proof.
  apply map_eq. intros a. rewrite !annotate_cases_lookup.
  by destruct (cases !! a).
Qed.

(** X24: a successful [add_jmptable] can be repeated with the same arguments:
    the second call succeeds too and leaves the object exactly as the first
    one left it. *)
Theorem add_jmptable_twice {B : Binary}
    (mode inst_addr table_addr entry_size nb_entries : Z)
    (d d1 : Disassembler) :
  add_jmptable mode inst_addr table_addr entry_size nb_entries d = Some (Ok d1) →
  add_jmptable mode inst_addr table_addr entry_size nb_entries d1 = Some (Ok d1).
Proof.
  intros Hadd.
  pose proof Hadd as (rev1 & tbl & cases & Hread & Hc & ->)%add_jmptable_Ok.
  unfold add_jmptable.
  set (nm := ("jmptable_0x" +:+ py_hex table_addr)%string) in *.
  unfold add_symbol. cbn [symbols reverse_symbols].
  rewrite lookup_insert_eq, lookup_insert_eq. cbn [res_bind].
  rewrite Hread, Hc.
  unfold set_previous_comments, set_inline_comments, set_jmptables,
    set_symbols.
  cbn [code symbols reverse_symbols jmptables inline_comments
       previous_comments trace].
  by rewrite !insert_insert_eq, insert_delete_eq, insert_insert_eq,
    annotate_cases_twice.
Qed.

Lemma add_jmptable_twice_witness :
  let B0 := Toy.binary 8192 Toy.prog_table false in
  ∃ d1, add_jmptable (B := B0) 0 4096 8192 2 4 empty_dis = Some (Ok d1)
        ∧ add_jmptable (B := B0) 0 4096 8192 2 4 d1 = Some (Ok d1).
Proof.
  intros B0.
  destruct (add_jmptable (B := B0) 0 4096 8192 2 4 empty_dis)
    as [[d1|e]|] eqn:Hadd; [|vm_compute in Hadd; discriminate..].
  exists d1. split; [reflexivity|].
  exact (add_jmptable_twice (B := B0) 0 4096 8192 2 4 empty_dis d1 Hadd).
Defined.

(** X25: asking [lazy_disasm] twice for the same address, under the same
    bound, gives the same answer, provided a decoding pass started at the
    address produces no second instruction with that address. *)
Theorem lazy_disasm_twice {B : Binary} {D : Decoder}
    (addr stay : Z) (d d1 : Disassembler) (r : option Inst) :
  (∀ first rest, md_disasm (section_stream_read addr 1024) addr = first :: rest →
     ∀ j, j ∈ rest → i_address j ≠ addr) →
  lazy_disasm addr stay d = (r, d1) →
  (lazy_disasm addr stay d1).1 = r.
Proof.
  intros Hsane. unfold lazy_disasm.
  destruct (get_section_meta addr) as [[[nm start] e]|];
    [|by intros [= <- <-]].
  destruct (_ && _); [by intros [= <- <-]|].
  destruct (code d !! addr) as [i|] eqn:Hc.
  { intros [= <- <-]. by rewrite Hc. }
  cbv zeta.
  destruct (md_disasm (section_stream_read addr 1024) addr)
    as [|first rest] eqn:Hgen.
  - intros [= <- <-]. simpl. by rewrite Hc.
  - intros [= <- <-]. simpl.
    by rewrite (fill_code_absent rest (code d) addr Hc (Hsane first rest eq_refl)).
Qed.

Lemma lazy_disasm_twice_witness :
  let B0 := Toy.binary 4096 Toy.prog_nops true in
  (lazy_disasm (B := B0) (D := Toy.decoder) 4096 (-1)
     (lazy_disasm (B := B0) (D := Toy.decoder) 4096 (-1) empty_dis).2).1
  = Some (MkInst 4096 1 Toy.ID_NOP []).
Proof.
  intros B0.
  apply (lazy_disasm_twice (B := B0) (D := Toy.decoder) 4096 (-1) empty_dis).
  - intros first rest [= <- <-] j Hj.
    apply elem_of_cons in Hj as [->|Hj]; [discriminate|].
    apply list_elem_of_singleton in Hj as ->. discriminate.
  - reflexivity.
Defined.
